(** * Org chart core: tree helpers, reducer and drag handler

    A shallow embedding of [src/utils/treeHelpers.js] ([buildTree],
    [filterEmployees], [getAllReports], [wouldCreateCircularReference]),
    of the reducer and [updateEmployeeManager] of
    [src/context/EmployeeContext.jsx], and of [handleDragEnd] of
    [src/components/OrgChart/OrgChart.jsx], followed by the properties
    of the specification that concern them. *)

From stdpp Require Import gmap strings list fin_maps relations pretty sorting.

Local Open Scope Z_scope.

(** ** Data model *)

(** An employee object of the flat collection.  Identifiers are numbers;
    [managerId] is [null] (here [None]) for an employee without manager. *)
Record employee := Employee {
  id : Z;
  name : string;
  designation : string;
  team : string;
  managerId : option Z;
}.

#[global] Instance employee_eq_dec : EqDecision employee.
Proof. solve_decision. Defined.

(** ** Query helpers of treeHelpers.js *)

(** [employees.filter((emp) => emp.managerId === currentId)] *)
Definition directReports (employees : list employee) (currentId : Z) : list employee :=
  filter (λ emp, managerId emp = Some currentId) employees.

(** The [while (queue.length > 0)] loop of [getAllReports].  The loop has
    no bound of its own, so the embedding counts the evaluations of the
    loop condition: [None] means that [fuel] evaluations were not enough. *)
Fixpoint getAllReports_loop (fuel : nat) (employees : list employee)
    (queue : list Z) (reports : list employee) : option (list employee) :=
  match fuel with
  | O => None
  | S fuel' =>
    match queue with
    | [] => Some reports
    | currentId :: queue' =>
      let direct := directReports employees currentId in
      getAllReports_loop fuel' employees
        (queue' ++ (id <$> direct)) (reports ++ direct)
    end
  end.

Definition getAllReports (fuel : nat) (employees : list employee)
    (managerId : Z) : option (list employee) :=
  getAllReports_loop fuel employees [managerId] [].

(** [allReports.some((emp) => emp.id === newManagerId)] *)
Definition some_id (newManagerId : Z) (allReports : list employee) : bool :=
  existsb (λ emp, bool_decide (id emp = newManagerId)) allReports.

Definition wouldCreateCircularReference (fuel : nat) (employees : list employee)
    (employeeId newManagerId : Z) : option bool :=
  if decide (employeeId = newManagerId) then Some true
  else some_id newManagerId <$> getAllReports fuel employees employeeId.

(** [findEmployeeById]: the first employee with the identifier, or [null]. *)
Definition findEmployeeById (employees : list employee) (i : Z) : option employee :=
  List.find (λ emp, bool_decide (id emp = i)) employees.

(** *** filterEmployees *)

(** [String.prototype.includes] *)
Definition includes (s term : string) : bool :=
  match String.index 0 term s with Some _ => true | None => false end.

(** A string is truthy when it is not empty. *)
Definition truthy (s : string) : bool :=
  match s with EmptyString => false | String _ _ => true end.

Section Engine.
(** [String.prototype.toLowerCase] and [Number.prototype.toString] are
    the engine's own: the first folds the letters of every script, the
    second prints large numbers with an exponent.  The helpers are
    modelled over whatever the two functions are. *)
Variable toLowerCase : string → string.
Variable toString : Z → string.

Definition matchesTerm (term : string) (emp : employee) : bool :=
  includes (toLowerCase (name emp)) term
  || includes (toLowerCase (designation emp)) term
  || includes (toLowerCase (team emp)) term
  || includes (toString (id emp)) term.

Definition filterEmployees (employees : list employee)
    (searchTerm selectedTeam : string) : list employee :=
  let filtered := employees in
  let filtered :=
    if truthy searchTerm then
      let term := toLowerCase searchTerm in
      List.filter (matchesTerm term) filtered
    else filtered in
  let filtered :=
    if truthy selectedTeam then
      filter (λ emp, team emp = selectedTeam) filtered
    else filtered in
  filtered.
End Engine.

(** What the two functions of the engine are on the tests' data: on
    strings of ASCII characters, and on the integers that print in plain
    decimal digits. *)
Definition lower_ascii (c : Ascii.ascii) : Ascii.ascii :=
  let n := Ascii.nat_of_ascii c in
  if ((65 <=? n)%nat && (n <=? 90)%nat)%bool then Ascii.ascii_of_nat (n + 32) else c.

Fixpoint asciiToLowerCase (s : string) : string :=
  match s with
  | EmptyString => EmptyString
  | String c s' => String (lower_ascii c) (asciiToLowerCase s')
  end.

Definition decimalToString (i : Z) : string := pretty i.

(** ** buildTree *)

(** A node object [{ ...emp, children: [] }].  The node objects are shared
    between [employeeMap], the [roots] array and the [children] arrays, and
    [children] is pushed to in place: a reference to a node is the key under
    which [employeeMap] holds it, and the forest is the [roots] array
    together with the objects it reaches. *)
Record node := Node {
  fields : employee;
  children : list Z;
}.

Record forest := Forest {
  roots : list Z;
  employeeMap : gmap Z node;
}.

(** First pass: [employeeMap.set(emp.id, { ...emp, children: [] })]. *)
Definition firstPass (employees : list employee) : gmap Z node :=
  foldl (λ m emp, <[id emp := Node emp []]> m) ∅ employees.

(** One iteration of the second [forEach]. *)
Definition secondPass_step (acc : gmap Z node * list Z) (emp : employee)
    : gmap Z node * list Z :=
  let '(m, roots) := acc in
  let node := id emp in
  match managerId emp with
  | None => (m, roots ++ [node])
  | Some mid =>
    match m !! mid with
    | Some manager =>
      (<[mid := Node (fields manager) (children manager ++ [node])]> m, roots)
    | None => (m, roots ++ [node])
    end
  end.

Definition buildTree (employees : list employee) : forest :=
  match employees with
  | [] => Forest [] ∅
  | _ =>
    let '(m, roots) := foldl secondPass_step (firstPass employees, []) employees in
    Forest roots m
  end.

(** Reading a forest the way [TreeNode] renders it: the node under a
    reference, then the nodes of each of its children, recursively.
    [fuel] bounds the depth, since nothing in a store of objects forbids a
    node from reaching itself. *)
Fixpoint subtreeNodes (fuel : nat) (m : gmap Z node) (ref : Z)
    : option (list employee) :=
  match fuel with
  | O => None
  | S fuel' =>
    nd ← m !! ref;
    below ← mapM (subtreeNodes fuel' m) (children nd);
    Some (fields nd :: concat below)
  end.

Definition forestNodes (fuel : nat) (f : forest) : option (list employee) :=
  below ← mapM (subtreeNodes fuel (employeeMap f)) (roots f);
  Some (concat below).

Definition nodeCount (fuel : nat) (f : forest) : option nat :=
  length <$> forestNodes fuel f.

(** ** The reducer of EmployeeContext.jsx *)

Record state := State {
  employees : list employee;
  loading : bool;
  error : option string;
  searchTerm : string;
  selectedTeam : string;
}.

(** The [updates] object of an [UPDATE_EMPLOYEE] action: the properties it
    carries replace those of the employee in [{ ...emp, ...updates }]. *)
Record employeeUpdates := Updates {
  upd_id : option Z;
  upd_name : option string;
  upd_designation : option string;
  upd_team : option string;
  upd_managerId : option (option Z);
}.

Definition spread (emp : employee) (updates : employeeUpdates) : employee :=
  {| id := default (id emp) (upd_id updates);
     name := default (name emp) (upd_name updates);
     designation := default (designation emp) (upd_designation updates);
     team := default (team emp) (upd_team updates);
     managerId := default (managerId emp) (upd_managerId updates) |}.

Inductive action :=
  | SET_EMPLOYEES (payload : list employee)
  | SET_LOADING (payload : bool)
  | SET_ERROR (payload : string)
  | UPDATE_EMPLOYEE (payload_id : Z) (payload_updates : employeeUpdates)
  | SET_SEARCH_TERM (payload : string)
  | SET_SELECTED_TEAM (payload : string)
  | OTHER.

Definition employeeReducer (st : state) (a : action) : state :=
  match a with
  | SET_EMPLOYEES payload =>
    State payload false (error st) (searchTerm st) (selectedTeam st)
  | SET_LOADING payload =>
    State (employees st) payload (error st) (searchTerm st) (selectedTeam st)
  | SET_ERROR payload =>
    State (employees st) false (Some payload) (searchTerm st) (selectedTeam st)
  | UPDATE_EMPLOYEE payload_id payload_updates =>
    State
      ((λ emp, if decide (id emp = payload_id)
               then spread emp payload_updates else emp) <$> employees st)
      (loading st) (error st) (searchTerm st) (selectedTeam st)
  | SET_SEARCH_TERM payload =>
    State (employees st) (loading st) (error st) payload (selectedTeam st)
  | SET_SELECTED_TEAM payload =>
    State (employees st) (loading st) (error st) (searchTerm st) payload
  | OTHER => st
  end.

(** ** updateEmployeeManager and handleDragEnd *)

(** What the awaited [fetch] and [response.json()] do is the transport's
    business: they either resolve or reject with an error message. *)
Inductive fetchOutcome :=
  | Resolved
  | Rejected (message : string).

(** What the user gets to see of a drop. *)
Inductive dropOutcome :=
  | Ignored            (* early [return], nothing shown *)
  | CircularAlert      (* alert('Cannot create circular reporting structure!') *)
  | Updated            (* the update was dispatched *)
  | FailedAlert.       (* alert('Failed to update employee manager. ...') *)

Section Transport.
Variable transport : Z → option Z → fetchOutcome.

(** The state after the call, and [inr message] when the call throws. *)
Definition updateEmployeeManager (st : state) (employeeId : Z)
    (newManagerId : option Z) : state * (unit + string) :=
  match transport employeeId newManagerId with
  | Resolved =>
    (employeeReducer st
       (UPDATE_EMPLOYEE employeeId
          (Updates None None None None (Some newManagerId))),
     inl ())
  | Rejected message => (st, inr message)
  end.

(** The handler works on two things.  [employees] is the collection of
    the render in which the handler was created ([const { employees } =
    useEmployees()]): it is what the circular-reference check reads.
    [st] is the state on which the update is dispatched, after the two
    awaits of [updateEmployeeManager]: it is the state of that render
    when no other update has landed in between, and a later one when
    another drop was still in flight.  [over] is [None] when the card is
    dropped on no employee.  The loop of the check is bounded by [fuel].
    The handler also clears the component's own [activeId], which is no
    part of the shared state. *)
Definition handleDragEnd (fuel : nat) (employees : list employee)
    (st : state) (active : Z) (over : option Z)
    : option (dropOutcome * state) :=
  match over with
  | None => Some (Ignored, st)
  | Some overId =>
    if decide (active = overId) then Some (Ignored, st)
    else
      let draggedEmployeeId := active in
      let newManagerId := overId in
      circular ← wouldCreateCircularReference fuel employees
                    draggedEmployeeId newManagerId;
      if (circular : bool) then Some (CircularAlert, st)
      else
        match updateEmployeeManager st draggedEmployeeId (Some newManagerId) with
        | (st', inl _) => Some (Updated, st')
        | (st', inr _) => Some (FailedAlert, st')
        end
  end.
End Transport.

(** ** The tests' five employees *)

Definition mockEmployees : list employee :=
  [ Employee 1 "CEO" "Chief Executive Officer" "Executive" None;
    Employee 2 "CTO" "Chief Technology Officer" "Technology" (Some 1);
    Employee 3 "CFO" "Chief Financial Officer" "Finance" (Some 1);
    Employee 4 "Dev Lead" "Development Lead" "Technology" (Some 2);
    Employee 5 "Senior Dev" "Senior Developer" "Technology" (Some 4) ].

(** ** Notions of the specification *)

(** Identifiers are unique within the record store. *)
Definition uniqueIds (employees : list employee) : Prop :=
  NoDup (id <$> employees).

(** The parent relation, restricted to the records whose parent reference
    resolves: [p] is a record of the collection that [e] reports to. *)
Definition parent (employees : list employee) (e p : employee) : Prop :=
  e ∈ employees ∧ p ∈ employees ∧ managerId e = Some (id p).

Definition acyclic (employees : list employee) : Prop :=
  ∀ e, ¬ tc (parent employees) e e.

(** A sufficient test for [acyclic]: every manager has a smaller
    identifier than its reports. *)
Definition managersFirst (employees : list employee) : bool :=
  forallb (λ e, match managerId e with
                | Some m => bool_decide (m < id e)
                | None => true
                end) employees.

(** A root record: no parent reference, or one that resolves to no record. *)
Definition isRoot (employees : list employee) (e : employee) : Prop :=
  match managerId e with
  | None => True
  | Some m => m ∉ id <$> employees
  end.

#[global] Instance isRoot_dec employees e : Decision (isRoot employees e).
Proof. unfold isRoot. destruct (managerId e); apply _. Defined.

Definition rootRecords (employees : list employee) : list employee :=
  filter (isRoot employees) employees.

(** Breadth-first enumeration as the specification words it: the direct
    reports of every record of a level, in order, form the next level. *)
Definition nextLevel (employees : list employee) (lvl : list employee)
    : list employee :=
  lvl ≫= (λ e, directReports employees (id e)).

Fixpoint levelFrom (employees : list employee) (start : list employee)
    (k : nat) : list employee :=
  match k with
  | O => start
  | S k' => nextLevel employees (levelFrom employees start k')
  end.

(** The first [depth] levels, one after the other. *)
Fixpoint levelOrder (employees : list employee) (lvl : list employee)
    (depth : nat) : list employee :=
  match depth with
  | O => []
  | S depth' => lvl ++ levelOrder employees (nextLevel employees lvl) depth'
  end.

(** No record of the first level comes back in a deeper one. *)
Definition apart (employees : list employee) (start : list employee) : Prop :=
  ∀ e d, e ∈ start → e ∉ levelFrom employees start (S d).

(** A chain of command, lowest record first: every record of the list
    reports to the next one, and the last one is [top]. *)
Inductive upchain (employees : list employee) : list employee → employee → Prop :=
  | upchain_one e :
      e ∈ employees → upchain employees [e] e
  | upchain_cons e p l top :
      e ∈ employees → managerId e = Some (id p) →
      upchain employees (p :: l) top →
      upchain employees (e :: p :: l) top.

(** Two records with the same identifier and manager, and a report of
    theirs: a collection with a duplicated parent edge. *)
Definition duplicatedEdge : list employee :=
  [ Employee 2 "CTO" "Chief Technology Officer" "Technology" (Some 1);
    Employee 2 "CTO bis" "Chief Technology Officer" "Technology" (Some 1);
    Employee 3 "Dev Lead" "Development Lead" "Technology" (Some 2) ].

(** A record that is its own manager. *)
Definition selfManager : list employee :=
  [ Employee 1 "CEO" "Chief Executive Officer" "Executive" (Some 1) ].

(** Two records that report to each other. *)
Definition mutualManagers : list employee :=
  [ Employee 1 "CEO" "Chief Executive Officer" "Executive" (Some 2);
    Employee 2 "CTO" "Chief Technology Officer" "Technology" (Some 1) ].

(** The initial state of the context, once the five employees are loaded. *)
Definition mockState : state :=
  State mockEmployees false None EmptyString EmptyString.

Definition alwaysResolved : Z → option Z → fetchOutcome := λ _ _, Resolved.

(** ** getUniqueTeams *)

(** [Array.from(new Set(array))]: the distinct values, in the order of
    their first occurrence. *)
Definition setFromArray `{EqDecision A} (array : list A) : list A :=
  foldl (λ acc x, if decide (x ∈ acc) then acc else acc ++ [x]) [] array.

Section CodeUnitOrder.
(** [Array.prototype.sort()] with the default comparator orders strings
    by their UTF-16 code units.  That order is the engine's: [codeUnitLe]
    stands for it, and what is used of it is that it is a decidable total
    order.  Under such an order the sorted array does not depend on the
    algorithm of the engine; merge sort stands for it. *)
Variable codeUnitLe : relation string.
Context `{!RelDecision codeUnitLe}.

Definition sort (array : list string) : list string :=
  merge_sort codeUnitLe array.

Definition getUniqueTeams (employees : list employee) : list string :=
  let teams := setFromArray (team <$> employees) in
  sort teams.

(** [teams] of EmployeeList.jsx: the options of the team filter. *)
Definition teams (st : state) : list string := getUniqueTeams (employees st).
End CodeUnitOrder.

(** ** What the components derive from the state *)

Section Views.
Variable toLowerCase : string → string.
Variable toString : Z → string.

(** [filteredEmployees] of OrgChart.jsx and EmployeeList.jsx. *)
Definition filteredEmployees (st : state) : list employee :=
  filterEmployees toLowerCase toString
    (employees st) (searchTerm st) (selectedTeam st).

(** [tree] of OrgChart.jsx: the forest of the filtered employees. *)
Definition tree (st : state) : forest := buildTree (filteredEmployees st).
End Views.

(** [setSearchTerm] and [setSelectedTeam] of the context. *)
Definition setSearchTerm (st : state) (term : string) : state :=
  employeeReducer st (SET_SEARCH_TERM term).

Definition setSelectedTeam (st : state) (t : string) : state :=
  employeeReducer st (SET_SELECTED_TEAM t).

(** The number of references held by the [children] arrays of the nodes
    of the map. *)
Definition childCount (m : gmap Z node) : nat :=
  map_fold (λ _ nd n, length (children nd) + n)%nat 0%nat m.

(** The record [e] is below the identifier [rootId] in the hierarchy: it
    reports to [rootId], or to a record that is below [rootId]. *)
Inductive reportsTo (employees : list employee) (rootId : Z) : employee → Prop :=
  | reportsTo_direct e :
      e ∈ employees → managerId e = Some rootId →
      reportsTo employees rootId e
  | reportsTo_via e p :
      e ∈ employees → managerId e = Some (id p) →
      reportsTo employees rootId p →
      reportsTo employees rootId e.

(** The collection after [UPDATE_EMPLOYEE] with only a new [managerId]. *)
Definition reparented (collection : list employee) (employeeId : Z)
    (newManagerId : option Z) : list employee :=
  employees
    (employeeReducer (State collection false None EmptyString EmptyString)
       (UPDATE_EMPLOYEE employeeId
          (Updates None None None None (Some newManagerId)))).

(** Two records with the same identifier, the second its own manager. *)
Definition ownChild : list employee :=
  [ Employee 1 "CEO" "Chief Executive Officer" "Executive" None;
    Employee 1 "CEO bis" "Chief Executive Officer" "Executive" (Some 1) ].

(** * Properties *)

(** ** The repository's tests, on the embedding *)

Example test_buildTree_roots : roots (buildTree mockEmployees) = [1].
Proof. reflexivity. Qed.

Example test_buildTree_children :
  children <$> employeeMap (buildTree mockEmployees) !! 1 = Some [2; 3]
  ∧ children <$> employeeMap (buildTree mockEmployees) !! 2 = Some [4]
  ∧ children <$> employeeMap (buildTree mockEmployees) !! 4 = Some [5].
Proof. split_and!; vm_compute; reflexivity. Qed.

Example test_buildTree_empty : roots (buildTree []) = [].
Proof. reflexivity. Qed.

Example test_filterEmployees :
  let filterEmployees := filterEmployees asciiToLowerCase decimalToString in
  name <$> filterEmployees mockEmployees "CEO" EmptyString = ["CEO"]
  ∧ name <$> filterEmployees mockEmployees "Developer" EmptyString = ["Senior Dev"]
  ∧ length (filterEmployees mockEmployees EmptyString "Technology") = 3%nat
  ∧ length (filterEmployees mockEmployees "Dev" "Technology") = 2%nat
  ∧ length (filterEmployees mockEmployees "ceo" EmptyString) = 1%nat.
Proof. split_and!; vm_compute; reflexivity. Qed.

Example test_findEmployeeById :
  name <$> findEmployeeById mockEmployees 2 = Some "CTO"
  ∧ findEmployeeById mockEmployees 999 = None.
Proof. split; reflexivity. Qed.

Example test_getAllReports :
  fmap (M:=list) id <$> getAllReports 10 mockEmployees 2 = Some [4; 5]
  ∧ getAllReports 10 mockEmployees 5 = Some [].
Proof. split; reflexivity. Qed.

Example test_wouldCreateCircularReference :
  wouldCreateCircularReference 10 mockEmployees 2 2 = Some true
  ∧ wouldCreateCircularReference 10 mockEmployees 1 5 = Some true
  ∧ wouldCreateCircularReference 10 mockEmployees 5 2 = Some false.
Proof. split_and!; reflexivity. Qed.

(** A record that is its own manager keeps the loop going for ever. *)
Example getAllReports_self_manager fuel :
  getAllReports fuel selfManager 1 = None.
Proof.
  unfold getAllReports. generalize (@nil employee) as reports.
  induction fuel as [|fuel IH]; intros reports; [done|].
  exact (IH (reports ++ directReports selfManager 1)).
Qed.

(** ** The queue loop goes level by level *)

Section Levels.
Variable employees : list employee.
Local Abbreviation direct := (directReports employees).
Local Abbreviation next := (nextLevel employees).
Local Abbreviation loop := (getAllReports_loop).

Lemma elem_of_directReports e x :
  e ∈ direct x ↔ managerId e = Some x ∧ e ∈ employees.
Proof. unfold directReports. by rewrite list_elem_of_filter. Qed.

Lemma elem_of_nextLevel e lvl :
  e ∈ next lvl ↔ ∃ p, p ∈ lvl ∧ managerId e = Some (id p) ∧ e ∈ employees.
Proof.
  unfold nextLevel. rewrite list_elem_of_bind.
  split; intros (p & H1 & H2).
  - apply elem_of_directReports in H1 as [? ?]. by exists p.
  - destruct H2. exists p. by rewrite elem_of_directReports.
Qed.

Lemma nextLevel_app l1 l2 : next (l1 ++ l2) = next l1 ++ next l2.
Proof. unfold nextLevel. apply bind_app. Qed.

Lemma nextLevel_ids lvl : (id <$> lvl) ≫= direct = next lvl.
Proof.
  unfold nextLevel. induction lvl as [|e lvl IH]; csimpl; [done|].
  by rewrite IH.
Qed.

Lemma levelFrom_shift start k :
  levelFrom employees start (S k) = levelFrom employees (next start) k.
Proof. induction k as [|k IH]; simpl in *; [done|]. by rewrite IH. Qed.

Lemma levelFrom_add start a b :
  levelFrom employees start (a + b) =
  levelFrom employees (levelFrom employees start a) b.
Proof.
  induction b as [|b IH]; simpl.
  - by rewrite Nat.add_0_r.
  - rewrite Nat.add_succ_r. simpl. by rewrite IH.
Qed.

Lemma levelFrom_nil k : levelFrom employees [] k = [].
Proof. induction k as [|k IH]; simpl; [done|]. by rewrite IH. Qed.

Lemma levelFrom_app l1 l2 k :
  levelFrom employees (l1 ++ l2) k =
  levelFrom employees l1 k ++ levelFrom employees l2 k.
Proof.
  induction k as [|k IH]; simpl; [done|]. by rewrite IH, nextLevel_app.
Qed.

Lemma levelFrom_empty_ge start k k' :
  levelFrom employees start k = [] → (k ≤ k')%nat →
  levelFrom employees start k' = [].
Proof.
  intros H Hle. replace k' with (k + (k' - k))%nat by lia.
  by rewrite levelFrom_add, H, levelFrom_nil.
Qed.

Lemma levelOrder_nil d : levelOrder employees [] d = [].
Proof. induction d as [|d IH]; simpl; [done|]. apply IH. Qed.

Lemma levelFrom_subseteq start k e :
  (∀ x, x ∈ start → x ∈ employees) →
  e ∈ levelFrom employees start k → e ∈ employees.
Proof.
  intros Hs. destruct k as [|k]; simpl; [apply Hs|].
  rewrite elem_of_nextLevel. by intros (_ & _ & _ & ?).
Qed.

Lemma elem_of_levelOrder start d e :
  e ∈ levelOrder employees start d ↔
  ∃ k, (k < d)%nat ∧ e ∈ levelFrom employees start k.
Proof.
  revert start. induction d as [|d IH]; intros start; simpl.
  - split; [by intros ?%elem_of_nil | intros (k & ? & _); lia].
  - rewrite elem_of_app, IH. split.
    + intros [H | (k & Hk & H)].
      * exists 0%nat. split; [lia | done].
      * exists (S k). split; [lia|]. by rewrite levelFrom_shift.
    + intros ([|k] & Hk & H).
      * by left.
      * right. exists k. split; [lia|]. by rewrite <- levelFrom_shift.
Qed.

(** One pass over the identifiers [q] at the head of the queue. *)
Lemma loop_pass q rest reports fuel :
  loop (length q + fuel) employees (q ++ rest) reports =
  loop fuel employees (rest ++ (id <$> q ≫= direct)) (reports ++ q ≫= direct).
Proof.
  revert rest reports. induction q as [|x q IH]; intros rest reports.
  - csimpl. by rewrite !app_nil_r.
  - change (length (x :: q) + fuel)%nat with (S (length q + fuel)).
    simpl. rewrite <- app_assoc, IH. csimpl.
    by rewrite fmap_app, <- !app_assoc.
Qed.

Lemma loop_level q reports fuel :
  loop (length q + fuel) employees q reports =
  loop fuel employees (id <$> q ≫= direct) (reports ++ q ≫= direct).
Proof. by rewrite <- (app_nil_r q) at 2; rewrite loop_pass. Qed.

Lemma loop_short q rest reports fuel :
  (fuel ≤ length q)%nat → loop fuel employees (q ++ rest) reports = None.
Proof.
  revert q rest reports. induction fuel as [|fuel IH]; intros q rest reports Hle.
  - done.
  - destruct q as [|x q]; simpl in *; [lia|].
    rewrite <- app_assoc. apply IH. lia.
Qed.

(** What the loop returns is the level order below the queue. *)
Lemma loop_levels fuel q reports out :
  q ≠ [] →
  loop fuel employees q reports = Some out →
  ∃ d, out = reports ++ levelOrder employees (q ≫= direct) d
       ∧ levelFrom employees (q ≫= direct) d = []
       ∧ ∀ k, (k < d)%nat → levelFrom employees (q ≫= direct) k ≠ [].
Proof.
  revert q reports. induction (lt_wf fuel) as [fuel _ IH].
  intros q reports Hq Hloop.
  destruct (decide (fuel ≤ length q)%nat) as [Hle|Hgt].
  { pose proof (loop_short q [] reports fuel Hle) as Hn.
    rewrite app_nil_r in Hn. congruence. }
  replace fuel with (length q + (fuel - length q))%nat in Hloop by lia.
  rewrite loop_level in Hloop.
  set (lvl := q ≫= direct) in *.
  destruct lvl as [|e lvl'] eqn:Hlvl.
  - destruct (fuel - length q)%nat; simpl in Hloop; [done|].
    exists 0%nat. simpl. split_and!; [congruence | done | lia].
  - assert (Hlen : (0 < length q)%nat) by (destruct q; simpl; [done | lia]).
    apply IH in Hloop; [| lia | done].
    destruct Hloop as (d & Hout & Hempty & Hmin).
    rewrite nextLevel_ids in Hout, Hempty, Hmin.
    exists (S d). split_and!.
    + simpl. rewrite Hout. by rewrite <- app_assoc.
    + by rewrite levelFrom_shift.
    + intros [|k] Hk; [done|]. rewrite levelFrom_shift. apply Hmin. lia.
Qed.

(** Conversely, once a level is empty the loop returns, whatever fuel
    it is given beyond what the levels need. *)
Lemma loop_returns d q reports :
  levelFrom employees (q ≫= direct) d = [] →
  ∃ fuel0, ∀ fuel, (fuel0 ≤ fuel)%nat →
    loop fuel employees q reports =
    Some (reports ++ levelOrder employees (q ≫= direct) d).
Proof.
  revert q reports. induction d as [|d IH]; intros q reports Hempty.
  - simpl in Hempty. exists (length q + 1)%nat. intros fuel Hle.
    replace fuel with (length q + S (fuel - length q - 1))%nat by lia.
    rewrite loop_level, Hempty. done.
  - rewrite levelFrom_shift, <- nextLevel_ids in Hempty.
    destruct (IH _ (reports ++ q ≫= direct) Hempty) as (fuel0 & Hfuel).
    exists (length q + fuel0)%nat. intros fuel Hle.
    replace fuel with (length q + (fuel - length q))%nat by lia.
    rewrite loop_level, Hfuel by lia. rewrite nextLevel_ids. simpl.
    by rewrite <- app_assoc.
Qed.
End Levels.

(** ** Chains of command and acyclic collections *)

Section Chains.
Variable employees : list employee.
Local Abbreviation direct := (directReports employees).
Local Abbreviation next := (nextLevel employees).

Lemma upchain_subseteq l top e : upchain employees l top → e ∈ l → e ∈ employees.
Proof.
  induction 1 as [e' He'|e' p l top He' Hm Hc IH]; intros He.
  - apply list_elem_of_singleton in He. by subst.
  - apply elem_of_cons in He as [->|He]; [done | by apply IH].
Qed.

Lemma upchain_top l top : upchain employees l top → top ∈ l.
Proof.
  induction 1 as [e He|e p l top He Hm Hc IH].
  - apply list_elem_of_here.
  - by apply list_elem_of_further.
Qed.

(** A chain grows at its top by the record its top reports to. *)
Lemma upchain_snoc l top p :
  upchain employees l top → p ∈ employees → managerId top = Some (id p) →
  upchain employees (l ++ [p]) p.
Proof.
  intros Hc Hp. induction Hc as [e He|e q l top He Hm Hc IH]; intros Htop.
  - simpl. apply upchain_cons; [done | done |]. by apply upchain_one.
  - simpl. apply upchain_cons; [done | done |]. by apply IH.
Qed.

Lemma upchain_tc e l top p :
  upchain employees (e :: l) top → p ∈ l → tc (parent employees) e p.
Proof.
  revert e. induction l as [|q l IH]; intros e Hc Hp.
  - by apply elem_of_nil in Hp.
  - inversion Hc as [|? ? ? ? He Hm Hc']; subst.
    assert (Hq : q ∈ employees).
    { apply (upchain_subseteq _ _ _ Hc'), list_elem_of_here. }
    assert (Hstep : parent employees e q) by done.
    apply elem_of_cons in Hp as [->|Hp].
    + by apply tc_once.
    + eapply tc_l; [done|]. by apply IH.
Qed.

Lemma upchain_NoDup l top :
  acyclic employees → upchain employees l top → NoDup l.
Proof.
  intros Hac. induction 1 as [e He|e p l top He Hm Hc IH].
  - apply NoDup_singleton.
  - apply NoDup_cons. split; [|done].
    intros Hin. apply (Hac e).
    eapply upchain_tc; [|done]. by apply upchain_cons.
Qed.

(** In an acyclic collection a chain has at most as many records as the
    collection. *)
Lemma upchain_length l top :
  acyclic employees → upchain employees l top →
  (length l ≤ length employees)%nat.
Proof.
  intros Hac Hc. apply submseteq_length, NoDup_submseteq.
  - by eapply upchain_NoDup.
  - intros e. by eapply upchain_subseteq.
Qed.

(** Every record of level [k] ends a chain of [k + 1] records that
    starts in level [0]. *)
Lemma levelFrom_upchain start k e :
  (∀ x, x ∈ start → x ∈ employees) →
  e ∈ levelFrom employees start k →
  ∃ l top, upchain employees (e :: l) top ∧ length l = k ∧ top ∈ start.
Proof.
  intros Hs. revert e. induction k as [|k IH]; intros e He; simpl in He.
  - exists [], e. split_and!; [| done | done]. apply upchain_one. by apply Hs.
  - apply elem_of_nextLevel in He as (p & Hp & Hm & He).
    destruct (IH p Hp) as (l & top & Hc & Hlen & Htop).
    exists (p :: l), top. split_and!; [| simpl; lia | done].
    by apply upchain_cons.
Qed.

(** The levels of an acyclic collection run out. *)
Lemma acyclic_levelFrom_empty start :
  acyclic employees →
  (∀ x, x ∈ start → x ∈ employees) →
  levelFrom employees start (length employees) = [].
Proof.
  intros Hac Hs.
  destruct (levelFrom employees start (length employees)) as [|e l] eqn:Hl; [done|].
  assert (He : e ∈ levelFrom employees start (length employees)).
  { rewrite Hl. apply list_elem_of_here. }
  apply levelFrom_upchain in He as (l' & top & Hc & Hlen & _); [|done].
  apply upchain_length in Hc; [|done]. simpl in Hc. lia.
Qed.

Lemma directReports_subseteq x e : e ∈ direct x → e ∈ employees.
Proof. rewrite elem_of_directReports. tauto. Qed.

Lemma managersFirst_acyclic : managersFirst employees = true → acyclic employees.
Proof.
  intros Hmf.
  assert (Hstep : ∀ e p, parent employees e p → id p < id e).
  { intros e p (He & _ & Hm). unfold managersFirst in Hmf.
    rewrite forallb_forall in Hmf. apply list_elem_of_In, Hmf in He.
    rewrite Hm in He. by apply bool_decide_eq_true in He. }
  assert (Htc : ∀ e p, tc (parent employees) e p → id p < id e).
  { induction 1 as [e p H|e q p H _ IH]; [by apply Hstep|].
    apply Hstep in H. lia. }
  intros e He. apply Htc in He. lia.
Qed.
End Chains.

(** ** Levels of a collection with unique identifiers *)

Section Unique.
Variable employees : list employee.
Hypothesis Huniq : uniqueIds employees.
Local Abbreviation direct := (directReports employees).
Local Abbreviation next := (nextLevel employees).

Lemma uniqueIds_NoDup : NoDup employees.
Proof. by apply (NoDup_fmap_1 id). Qed.

Lemma uniqueIds_inj e e' :
  e ∈ employees → e' ∈ employees → id e = id e' → e = e'.
Proof.
  unfold uniqueIds in Huniq. revert Huniq.
  induction employees as [|a l IH]; intros Hnd He He'.
  - by apply elem_of_nil in He.
  - rewrite fmap_cons in Hnd. apply NoDup_cons in Hnd as [Ha Hnd].
    apply elem_of_cons in He as [->|He], He' as [->|He']; intros Hid.
    + done.
    + destruct Ha. rewrite Hid. by apply list_elem_of_fmap_2.
    + destruct Ha. rewrite <- Hid. by apply list_elem_of_fmap_2.
    + by apply IH.
Qed.

Lemma directReports_NoDup x : NoDup (direct x).
Proof. unfold directReports. apply NoDup_filter, uniqueIds_NoDup. Qed.

Lemma nextLevel_NoDup lvl :
  (∀ x, x ∈ lvl → x ∈ employees) → NoDup lvl → NoDup (next lvl).
Proof.
  intros Hsub Hnd. unfold nextLevel. apply NoDup_bind; [| |done].
  - intros p p' e Hp Hp' He He'.
    apply elem_of_directReports in He as [Hm _], He' as [Hm' _].
    apply uniqueIds_inj; [by apply Hsub | by apply Hsub | congruence].
  - intros p _. apply directReports_NoDup.
Qed.

Lemma levelFrom_NoDup start k :
  (∀ x, x ∈ start → x ∈ employees) → NoDup start →
  NoDup (levelFrom employees start k).
Proof.
  intros Hsub Hnd. induction k as [|k IH]; simpl; [done|].
  apply nextLevel_NoDup; [|done]. intros x. by apply levelFrom_subseteq.
Qed.

(** A record found in two levels has an ancestor in level [0] that is
    found again in a deeper level. *)
Lemma levelFrom_twice start i d e :
  (∀ x, x ∈ start → x ∈ employees) →
  e ∈ levelFrom employees start i →
  e ∈ levelFrom employees start (i + S d) →
  ∃ e', e' ∈ start ∧ e' ∈ levelFrom employees start (S d).
Proof.
  intros Hsub. revert e. induction i as [|i IH]; intros e He He'.
  - by exists e.
  - simpl in He, He'.
    apply elem_of_nextLevel in He as (p & Hp & Hm & _).
    apply elem_of_nextLevel in He' as (p' & Hp' & Hm' & _).
    assert (p = p') as <-.
    { apply uniqueIds_inj; [by eapply levelFrom_subseteq ..|congruence]. }
    by apply (IH p).
Qed.

Lemma apart_nextLevel start :
  (∀ x, x ∈ start → x ∈ employees) → apart employees start → apart employees (next start).
Proof.
  intros Hsub Hap e d He He'.
  rewrite <- levelFrom_shift in He'.
  destruct (levelFrom_twice start 1 d e Hsub He He') as (e' & H1 & H2).
  by apply (Hap e' d).
Qed.

Lemma levelOrder_NoDup start d :
  (∀ x, x ∈ start → x ∈ employees) → NoDup start → apart employees start →
  NoDup (levelOrder employees start d).
Proof.
  revert start. induction d as [|d IH]; intros start Hsub Hnd Hap; simpl.
  - apply NoDup_nil_2.
  - apply NoDup_app. split_and!; [done | |].
    + intros e He (k & _ & Hk)%elem_of_levelOrder.
      rewrite <- levelFrom_shift in Hk. by apply (Hap e k).
    + apply IH.
      * intros x. by apply (levelFrom_subseteq employees start 1).
      * by apply nextLevel_NoDup.
      * by apply apart_nextLevel.
Qed.

Lemma rootRecords_apart : apart employees (rootRecords employees).
Proof.
  intros e d He He'. simpl in He'.
  apply elem_of_nextLevel in He' as (p & Hp & Hm & _).
  apply list_elem_of_filter in He as [Hroot _].
  unfold isRoot in Hroot. rewrite Hm in Hroot. apply Hroot.
  apply list_elem_of_fmap_2.
  eapply levelFrom_subseteq; [|done].
  intros x Hx. by apply list_elem_of_filter in Hx as [_ ?].
Qed.
End Unique.

Section Returning.
Variable employees : list employee.
Local Abbreviation direct := (directReports employees).

Lemma levelFrom_mono A B k e :
  (∀ x, x ∈ A → x ∈ B) →
  e ∈ levelFrom employees A k → e ∈ levelFrom employees B k.
Proof.
  intros Hsub. revert e. induction k as [|k IH]; intros e; simpl; [apply Hsub|].
  rewrite !elem_of_nextLevel. intros (p & Hp & H). exists p. split; [by apply IH|done].
Qed.

(** When the enumeration below [x] comes to an end, no direct report of
    [x] is found again further down. *)
Lemma returning_apart x K :
  levelFrom employees (direct x) K = [] → apart employees (direct x).
Proof.
  intros Hempty e d He He'.
  assert (Hincl : ∀ a, a ∈ direct x → a ∈ levelFrom employees (direct x) (S d)).
  { simpl in He'. apply elem_of_nextLevel in He' as (p & Hp & Hm & _).
    apply elem_of_directReports in He as [Hx _].
    intros a [Ha Hin]%elem_of_directReports. simpl.
    apply elem_of_nextLevel. exists p. split_and!; [done | congruence | done]. }
  assert (Hiter : ∀ m a, a ∈ direct x →
            a ∈ levelFrom employees (direct x) (m * S d)).
  { induction m as [|m IHm]; intros a Ha; [done|].
    replace (S m * S d)%nat with (m * S d + S d)%nat by lia.
    rewrite levelFrom_add. eapply levelFrom_mono; [apply IHm|]. by apply Hincl. }
  specialize (Hiter K e He).
  rewrite (levelFrom_empty_ge employees _ K) in Hiter; [|done|nia].
  by apply elem_of_nil in Hiter.
Qed.
End Returning.

(** ** What buildTree leaves in the map and in the roots *)

Section BuildTree.
Variable employees : list employee.
Local Abbreviation direct := (directReports employees).

Lemma firstPass_snoc l e :
  firstPass (l ++ [e]) = <[id e := Node e []]> (firstPass l).
Proof. unfold firstPass. by rewrite foldl_snoc. Qed.

Lemma firstPass_lookup_Some l x nd :
  firstPass l !! x = Some nd →
  children nd = [] ∧ fields nd ∈ l ∧ id (fields nd) = x.
Proof.
  induction l as [|e l IH] using rev_ind.
  - unfold firstPass. simpl. by rewrite lookup_empty.
  - rewrite firstPass_snoc, lookup_insert. case_decide as Hx.
    + intros [= <-]. simpl. split_and!; [done | | done].
      apply elem_of_app. right. apply list_elem_of_here.
    + intros (? & ? & ?)%IH. split_and!; [done | | done].
      apply elem_of_app. by left.
Qed.

Lemma firstPass_lookup_None l x :
  firstPass l !! x = None ↔ x ∉ id <$> l.
Proof.
  induction l as [|e l IH] using rev_ind.
  - unfold firstPass. simpl. rewrite lookup_empty. split; [|done].
    intros _. apply not_elem_of_nil.
  - rewrite firstPass_snoc, lookup_insert, fmap_app, elem_of_app. simpl.
    rewrite list_elem_of_singleton. case_decide as Hx.
    + split; [done|]. intros H. destruct H. by right.
    + rewrite IH. split; [|tauto]. intros H [?|?]; [tauto | congruence].
Qed.

Lemma firstPass_lookup_unique l e :
  uniqueIds l → e ∈ l → firstPass l !! id e = Some (Node e []).
Proof.
  unfold uniqueIds. induction l as [|a l IH] using rev_ind; intros Hnd He.
  - by apply elem_of_nil in He.
  - rewrite fmap_app in Hnd. apply NoDup_app in Hnd as (Hnd & Hdis & _).
    rewrite firstPass_snoc.
    apply elem_of_app in He as [He|He].
    + rewrite lookup_insert_ne; [by apply IH|].
      intros Heq. apply (Hdis (id e)); [by apply list_elem_of_fmap_2|].
      rewrite <- Heq. apply list_elem_of_here.
    + apply list_elem_of_singleton in He as ->. by rewrite lookup_insert_eq.
Qed.

Lemma directReports_snoc l emp x :
  directReports (l ++ [emp]) x =
  directReports l x ++ (if decide (managerId emp = Some x) then [emp] else []).
Proof. unfold directReports. by rewrite filter_app, (filter_singleton _ emp []). Qed.

Lemma rootRecords_snoc l emp :
  filter (isRoot employees) (l ++ [emp]) =
  filter (isRoot employees) l ++ (if decide (isRoot employees emp) then [emp] else []).
Proof. by rewrite filter_app, (filter_singleton _ emp []). Qed.

(** After the second pass has gone through the records [done], a node
    holds the identifiers of its direct reports among [done], in order,
    and [roots] holds those of the root records among [done]. *)
Lemma secondPass_spec done :
  let r := foldl secondPass_step (firstPass employees, []) done in
  (∀ x, r.1 !! x =
        (λ nd, Node (fields nd) (id <$> directReports done x))
          <$> firstPass employees !! x)
  ∧ r.2 = id <$> filter (isRoot employees) done.
Proof.
  induction done as [|emp done IH] using rev_ind; simpl.
  - split; [|done]. intros x.
    destruct (firstPass employees !! x) as [nd|] eqn:Hx; [|done].
    simpl. apply firstPass_lookup_Some in Hx as (Hch & _). destruct nd; simpl in *.
    by subst.
  - rewrite foldl_snoc. simpl in IH.
    destruct (foldl secondPass_step (firstPass employees, []) done) as [m rts].
    simpl in IH. destruct IH as [Hm Hr]. subst rts.
    rewrite rootRecords_snoc. unfold secondPass_step.
    destruct (managerId emp) as [mid|] eqn:Hmgr.
    + rewrite Hm. destruct (firstPass employees !! mid) as [nd0|] eqn:Hmid; simpl.
      * split.
        -- intros x. rewrite directReports_snoc, Hmgr, lookup_insert.
           case_decide as Hx.
           ++ subst x. rewrite Hmid, decide_True by done. simpl.
              by rewrite fmap_app.
           ++ rewrite Hm, decide_False by congruence. by rewrite app_nil_r.
        -- rewrite decide_False; [by rewrite app_nil_r|].
           unfold isRoot. rewrite Hmgr. intros Hn.
           apply firstPass_lookup_None in Hn. congruence.
      * split.
        -- intros x. rewrite directReports_snoc, Hmgr, Hm.
           destruct (decide (mid = x)) as [<-|Hx].
           ++ by rewrite Hmid.
           ++ rewrite decide_False by congruence. by rewrite app_nil_r.
        -- rewrite decide_True; [by rewrite fmap_app|].
           unfold isRoot. rewrite Hmgr. by apply firstPass_lookup_None.
    + simpl. split.
      * intros x. rewrite directReports_snoc, Hmgr, Hm.
        rewrite decide_False by congruence. by rewrite app_nil_r.
      * rewrite decide_True; [by rewrite fmap_app|].
        unfold isRoot. by rewrite Hmgr.
Qed.

Lemma buildTree_roots :
  roots (buildTree employees) = id <$> rootRecords employees.
Proof.
  unfold buildTree, rootRecords. destruct employees as [|e l] eqn:He; [done|].
  rewrite <- He. pose proof (secondPass_spec employees) as [_ Hr].
  destruct (foldl secondPass_step (firstPass employees, []) employees). done.
Qed.

Lemma buildTree_lookup x :
  employeeMap (buildTree employees) !! x =
  (λ nd, Node (fields nd) (id <$> direct x)) <$> firstPass employees !! x.
Proof.
  unfold buildTree. destruct employees as [|e l] eqn:He.
  - unfold firstPass. simpl. by rewrite !lookup_empty.
  - rewrite <- He. pose proof (secondPass_spec employees) as [Hm _].
    destruct (foldl secondPass_step (firstPass employees, []) employees). apply Hm.
Qed.

Lemma buildTree_lookup_unique e :
  uniqueIds employees → e ∈ employees →
  employeeMap (buildTree employees) !! id e =
  Some (Node e (id <$> direct (id e))).
Proof.
  intros Hu He. by rewrite buildTree_lookup, firstPass_lookup_unique.
Qed.
End BuildTree.

(** ** Reading the built forest level by level *)

Section Reading.
Variable employees : list employee.
Local Abbreviation direct := (directReports employees).
Local Abbreviation next := (nextLevel employees).
Local Abbreviation R := (rootRecords employees).

Lemma levelOrder_app A B d :
  levelOrder employees (A ++ B) d ≡ₚ
  levelOrder employees A d ++ levelOrder employees B d.
Proof.
  revert A B. induction d as [|d IH]; intros A B; simpl; [done|].
  rewrite nextLevel_app, IH, <- !app_assoc. f_equiv.
  rewrite !app_assoc. f_equiv. apply Permutation_app_comm.
Qed.

Lemma rootRecords_subseteq e : e ∈ R → e ∈ employees.
Proof. unfold rootRecords. rewrite list_elem_of_filter. tauto. Qed.

(** A chain whose top is in level [k] has its lowest record in level
    [k + length l]. *)
Lemma upchain_levelFrom start c top k :
  upchain employees c top → top ∈ levelFrom employees start k →
  match c with
  | e :: l => e ∈ levelFrom employees start (k + length l)
  | [] => True
  end.
Proof.
  induction 1 as [e He|e p l top He Hm Hc IH]; intros Htop.
  - by rewrite Nat.add_0_r.
  - specialize (IH Htop). simpl in *. rewrite Nat.add_succ_r. simpl.
    apply elem_of_nextLevel. by exists p.
Qed.

(** In an acyclic collection the chain of command above any record ends
    in a root record. *)
Lemma acyclic_climb m e l top :
  acyclic employees →
  upchain employees (e :: l) top →
  (length employees < S (length l) + m)%nat →
  ∃ k, e ∈ levelFrom employees R k.
Proof.
  intros Hac. revert l top. induction m as [|m IH]; intros l top Hc Hlen.
  - apply upchain_length in Hc; [|done]. simpl in Hc. lia.
  - assert (Htop : top ∈ employees).
    { eapply upchain_subseteq; [done|]. by eapply upchain_top. }
    destruct (decide (isRoot employees top)) as [Hroot|Hroot].
    + exists (0 + length l)%nat.
      apply (upchain_levelFrom R _ _ 0 Hc). simpl.
      unfold rootRecords. by rewrite list_elem_of_filter.
    + unfold isRoot in Hroot. destruct (managerId top) as [mid|] eqn:Hm; [|done].
      apply dec_stable in Hroot.
      apply list_elem_of_fmap in Hroot as (p & -> & Hp).
      apply (IH (l ++ [p]) p).
      * change (e :: l ++ [p]) with ((e :: l) ++ [p]). by eapply upchain_snoc.
      * rewrite length_app. simpl. lia.
Qed.

Lemma acyclic_levelOrder_roots :
  uniqueIds employees → acyclic employees →
  levelOrder employees R (length employees) ≡ₚ employees.
Proof.
  intros Hu Hac. apply NoDup_Permutation.
  - apply levelOrder_NoDup; [done | apply rootRecords_subseteq | |].
    + unfold rootRecords. by apply NoDup_filter, uniqueIds_NoDup.
    + by apply rootRecords_apart.
  - by apply uniqueIds_NoDup.
  - intros e. rewrite elem_of_levelOrder. split.
    + intros (k & _ & Hk). eapply levelFrom_subseteq; [|done].
      apply rootRecords_subseteq.
    + intros He.
      destruct (acyclic_climb (length employees) e [] e Hac) as (k & Hk);
        [by apply upchain_one | simpl; lia |].
      exists k. split; [|done].
      destruct (decide (k < length employees)%nat) as [|Hge]; [done|].
      rewrite (levelFrom_empty_ge employees R (length employees) k) in Hk.
      * by apply elem_of_nil in Hk.
      * apply acyclic_levelFrom_empty; [done | apply rootRecords_subseteq].
      * lia.
Qed.

(** With unique identifiers, the nodes below the records of a level are
    the records of the levels below it. *)
Lemma subtreeNodes_levelOrder d lvl :
  uniqueIds employees →
  (∀ x, x ∈ lvl → x ∈ employees) →
  levelFrom employees lvl d = [] →
  ∃ ts, mapM (subtreeNodes d (employeeMap (buildTree employees))) (id <$> lvl)
        = Some ts
        ∧ concat ts ≡ₚ levelOrder employees lvl d.
Proof.
  intros Hu. revert lvl. induction d as [|d IHd]; intros lvl Hsub Hempty.
  - simpl in Hempty. subst lvl. by exists [].
  - induction lvl as [|p lvl IHl].
    + exists []. split; [done|]. by rewrite levelOrder_nil.
    + change (p :: lvl) with ([p] ++ lvl) in Hempty.
      rewrite levelFrom_app in Hempty. apply app_eq_nil in Hempty as [Hp Hl].
      rewrite levelFrom_shift in Hp. unfold nextLevel in Hp. csimpl in Hp.
      rewrite app_nil_r in Hp.
      destruct (IHd (direct (id p))) as (below & Hbelow & Hperm);
        [apply directReports_subseteq | done |].
      destruct IHl as (ts & Hts & Hperm');
        [intros x Hx; by apply Hsub, list_elem_of_further | done |].
      exists ((p :: concat below) :: ts). split.
      * apply mapM_Some_2. rewrite fmap_cons. apply Forall2_cons.
        split; [|by apply mapM_Some_1].
        simpl. rewrite buildTree_lookup_unique;
          [| done | apply Hsub, list_elem_of_here].
        simpl. by rewrite Hbelow.
      * change (p :: lvl) with ([p] ++ lvl). rewrite levelOrder_app.
        simpl. rewrite Hperm'. simpl. f_equiv.
        unfold nextLevel. csimpl. rewrite app_nil_r, Hperm. done.
Qed.
End Reading.

(** ** The integrity guard *)

Lemma some_id_true y reports :
  some_id y reports = true ↔ y ∈ id <$> reports.
Proof.
  unfold some_id. rewrite existsb_exists, list_elem_of_fmap. split.
  - intros (e & He & Hid). apply bool_decide_eq_true in Hid.
    exists e. by rewrite list_elem_of_In.
  - intros (e & -> & He). exists e. rewrite <- list_elem_of_In.
    by rewrite bool_decide_eq_true.
Qed.

Lemma getAllReports_acyclic_returns employees rootId :
  acyclic employees →
  ∃ fuel0 out, ∀ fuel, (fuel0 ≤ fuel)%nat →
    getAllReports fuel employees rootId = Some out.
Proof.
  intros Hac.
  destruct (loop_returns employees (length employees) [rootId] []) as (fuel0 & Hfuel).
  { csimpl. rewrite app_nil_r.
    apply acyclic_levelFrom_empty; [done | apply directReports_subseteq]. }
  exists fuel0. eexists. intros fuel Hle. unfold getAllReports. by apply Hfuel.
Qed.

(** C1, as the code has it.  [wouldCreateCircularReference] returns
    [true] when the employee and the proposed manager are the same.
    Otherwise it returns when [getAllReports] of the employee does, and
    then [true] exactly when the proposed manager's identifier is among
    those of the reports and [false] in every other case; as long as
    [getAllReports] has not returned, neither has it.  On an acyclic
    collection it returns for every pair, once given enough fuel. *)
Theorem wouldCreateCircularReference_spec fuel employees x y :
  (x = y → wouldCreateCircularReference fuel employees x y = Some true)
  ∧ (x ≠ y → ∀ reports,
       getAllReports fuel employees x = Some reports →
       ∃ b, wouldCreateCircularReference fuel employees x y = Some b
            ∧ (b = true ↔ y ∈ id <$> reports)
            ∧ (b = false ↔ y ∉ id <$> reports))
  ∧ (x ≠ y → getAllReports fuel employees x = None →
       wouldCreateCircularReference fuel employees x y = None)
  ∧ (acyclic employees →
       ∃ fuel0 b, ∀ fuel', (fuel0 ≤ fuel')%nat →
         wouldCreateCircularReference fuel' employees x y = Some b).
Proof.
  unfold wouldCreateCircularReference. split_and!.
  - intros ->. by rewrite decide_True.
  - intros Hne reports Hr. rewrite decide_False, Hr by done. simpl.
    exists (some_id y reports). split_and!; [done | apply some_id_true |].
    rewrite <- some_id_true. by destruct (some_id y reports).
  - intros Hne Hr. by rewrite decide_False, Hr.
  - intros Hac.
    destruct (getAllReports_acyclic_returns employees x Hac) as (fuel0 & out & Hout).
    exists fuel0. case_decide.
    + exists true. by intros.
    + exists (some_id y out). intros fuel' Hle. by rewrite Hout.
Qed.

Lemma wouldCreateCircularReference_spec_witness :
  wouldCreateCircularReference 10 mockEmployees 2 2 = Some true
  ∧ (getAllReports 10 mockEmployees 1 = Some (drop 1 mockEmployees)
     ∧ ∃ b, wouldCreateCircularReference 10 mockEmployees 1 5 = Some b
            ∧ (b = true ↔ 5 ∈ id <$> drop 1 mockEmployees)
            ∧ (b = false ↔ 5 ∉ id <$> drop 1 mockEmployees))
  ∧ (getAllReports 3 mockEmployees 1 = None
     ∧ wouldCreateCircularReference 3 mockEmployees 1 5 = None)
  ∧ (acyclic mockEmployees
     ∧ ∃ fuel0 b, ∀ fuel', (fuel0 ≤ fuel')%nat →
         wouldCreateCircularReference fuel' mockEmployees 1 5 = Some b).
Proof.
  assert (Hac : acyclic mockEmployees).
  { apply managersFirst_acyclic. reflexivity. }
  split_and!.
  - apply (proj1 (wouldCreateCircularReference_spec 10 mockEmployees 2 2)).
    reflexivity.
  - reflexivity.
  - apply (proj1 (proj2 (wouldCreateCircularReference_spec 10 mockEmployees 1 5)));
      [lia | reflexivity].
  - reflexivity.
  - apply (proj1 (proj2 (proj2
             (wouldCreateCircularReference_spec 3 mockEmployees 1 5))));
      [lia | reflexivity].
  - exact Hac.
  - exact (proj2 (proj2 (proj2
             (wouldCreateCircularReference_spec 0 mockEmployees 1 5))) Hac).
Defined.

(** C1 does not hold of every collection: where two records report to
    each other, the guard asked about one of them and a third identifier
    never returns, so it does not return [false]. *)
Lemma wouldCreateCircularReference_cycle_counterexample :
  (3 ∉ id <$> mutualManagers)
  ∧ ∀ fuel, wouldCreateCircularReference fuel mutualManagers 1 3 = None.
Proof.
  split.
  - intros Hin. by apply list_elem_of_In in Hin; simpl in Hin; intuition lia.
  - intros fuel. unfold wouldCreateCircularReference, getAllReports.
    rewrite decide_False by lia.
    assert (Hloop : ∀ reports,
              getAllReports_loop fuel mutualManagers [1] reports = None
              ∧ getAllReports_loop fuel mutualManagers [2] reports = None).
    { induction fuel as [|fuel IH]; intros reports; [done|]. split.
      - exact (proj2 (IH (reports ++ directReports mutualManagers 1))).
      - exact (proj1 (IH (reports ++ directReports mutualManagers 2))). }
    by rewrite (proj1 (Hloop [])).
Qed.

(** ** filterEmployees *)

(** C9. With an empty search term and an empty team filter,
    [filterEmployees] returns the collection as it is: the same records
    in the same order. *)
Theorem filterEmployees_no_filters toLowerCase toString employees :
  filterEmployees toLowerCase toString employees EmptyString EmptyString
  = employees.
Proof. unfold filterEmployees. simpl. reflexivity. Qed.

(** ** The reducer and updateEmployeeManager *)

Lemma update_unknown_id (l : list employee) i updates :
  i ∉ id <$> l →
  (λ emp, if decide (id emp = i) then spread emp updates else emp) <$> l = l.
Proof.
  induction l as [|e l IH]; intros Hi; csimpl; [done|].
  rewrite fmap_cons in Hi. apply not_elem_of_cons in Hi as [Hne Hi].
  rewrite decide_False by congruence. by rewrite IH.
Qed.

(** C7. An [UPDATE_EMPLOYEE] whose target matches no record returns the
    state it was given, and [updateEmployeeManager], whose dispatch it is,
    returns normally: the unknown target is a silent no-op. *)
Theorem reducer_unknown_target st i updates :
  i ∉ id <$> employees st →
  employeeReducer st (UPDATE_EMPLOYEE i updates) = st
  ∧ ∀ transport newManagerId,
      transport i newManagerId = Resolved →
      updateEmployeeManager transport st i newManagerId = (st, inl ()).
Proof.
  intros Hi. split.
  - destruct st as [emps ld err term tm]. simpl in *. f_equal.
    by apply update_unknown_id.
  - intros transport newManagerId Ht. unfold updateEmployeeManager. rewrite Ht.
    f_equal. destruct st as [emps ld err term tm]. simpl in *. f_equal.
    by apply update_unknown_id.
Qed.

Lemma reducer_unknown_target_witness :
  (99 ∉ id <$> employees mockState)
  ∧ employeeReducer mockState
      (UPDATE_EMPLOYEE 99 (Updates None None None None (Some (Some 1))))
    = mockState
  ∧ updateEmployeeManager alwaysResolved mockState 99 (Some 1)
    = (mockState, inl ()).
Proof.
  assert (H : 99 ∉ (id <$> employees mockState)).
  { intros Hin. by apply list_elem_of_In in Hin; simpl in Hin; intuition lia. }
  split; [exact H|].
  destruct (reducer_unknown_target mockState 99
              (Updates None None None None (Some (Some 1))) H) as [H1 H2].
  split; [exact H1|]. apply H2. reflexivity.
Defined.

(** C5. When [updateEmployeeManager] goes through, the collection it
    leaves has the same length, every position holds the record it held
    before, and only a record with the target identifier has changed: its
    [managerId] is the new one, its other fields are the old ones.  The
    other fields of the state are the old ones too. *)
Theorem updateEmployeeManager_frame transport st i newManagerId :
  transport i newManagerId = Resolved →
  ∃ st', updateEmployeeManager transport st i newManagerId = (st', inl ())
    ∧ length (employees st') = length (employees st)
    ∧ (∀ (k : nat) e, employees st !! k = Some e →
         employees st' !! k =
         Some (if decide (id e = i)
               then Employee (id e) (name e) (designation e) (team e) newManagerId
               else e))
    ∧ loading st' = loading st ∧ error st' = error st
    ∧ searchTerm st' = searchTerm st ∧ selectedTeam st' = selectedTeam st.
Proof.
  intros Ht. unfold updateEmployeeManager. rewrite Ht.
  eexists. split; [done|]. simpl. split_and!; try done.
  - by rewrite length_fmap.
  - intros k e Hk. rewrite list_lookup_fmap, Hk. simpl. by case_decide.
Qed.

Lemma updateEmployeeManager_frame_witness :
  alwaysResolved 5 (Some 2) = Resolved
  ∧ ∃ st', updateEmployeeManager alwaysResolved mockState 5 (Some 2) = (st', inl ())
    ∧ length (employees st') = length (employees mockState)
    ∧ (∀ (k : nat) e, employees mockState !! k = Some e →
         employees st' !! k =
         Some (if decide (id e = 5)
               then Employee (id e) (name e) (designation e) (team e) (Some 2)
               else e))
    ∧ loading st' = loading mockState ∧ error st' = error mockState
    ∧ searchTerm st' = searchTerm mockState
    ∧ selectedTeam st' = selectedTeam mockState.
Proof.
  split; [reflexivity|].
  apply (updateEmployeeManager_frame alwaysResolved mockState 5 (Some 2)).
  reflexivity.
Defined.

(** C6, as the code has it.  [updateEmployeeManager] checks neither
    identifier against the collection: whenever the transport resolves it
    returns normally; a target that matches no record leaves the state as
    it is, and a new manager that matches no record is written to the
    target records as it is.  When the transport rejects, the state is
    left as it is and the transport's own message is thrown. *)
Theorem updateEmployeeManager_no_existence_check transport st i newManagerId :
  (transport i newManagerId = Resolved →
     (updateEmployeeManager transport st i newManagerId).2 = inl ()
     ∧ (i ∉ id <$> employees st →
          (updateEmployeeManager transport st i newManagerId).1 = st)
     ∧ (∀ e, e ∈ employees st → id e = i →
          Employee (id e) (name e) (designation e) (team e) newManagerId
          ∈ employees (updateEmployeeManager transport st i newManagerId).1))
  ∧ (∀ message, transport i newManagerId = Rejected message →
       updateEmployeeManager transport st i newManagerId = (st, inr message)).
Proof.
  unfold updateEmployeeManager. split.
  - intros Ht. rewrite Ht. simpl. split_and!; [done | |].
    + intros Hi. destruct st as [emps ld err term tm]. simpl in *. f_equal.
      by apply update_unknown_id.
    + intros e He Hid. apply list_elem_of_fmap. exists e. split; [|done].
      by rewrite decide_True.
  - intros message Ht. by rewrite Ht.
Qed.

Lemma updateEmployeeManager_no_existence_check_witness :
  alwaysResolved 5 (Some 99) = Resolved
  ∧ (updateEmployeeManager alwaysResolved mockState 5 (Some 99)).2 = inl ()
  ∧ Employee 5 "Senior Dev" "Senior Developer" "Technology" (Some 99)
    ∈ employees (updateEmployeeManager alwaysResolved mockState 5 (Some 99)).1.
Proof.
  split; [reflexivity|].
  destruct (proj1 (updateEmployeeManager_no_existence_check
                     alwaysResolved mockState 5 (Some 99)) eq_refl)
    as (H1 & _ & H3).
  split; [exact H1|].
  apply (H3 (Employee 5 "Senior Dev" "Senior Developer" "Technology" (Some 4)));
    [|reflexivity].
  unfold mockState, mockEmployees. simpl. do 4 apply list_elem_of_further.
  apply list_elem_of_here.
Defined.

(** C6 does not hold of the code: with a transport that resolves, neither
    an employee identifier nor a new manager identifier that matches no
    record makes [updateEmployeeManager] fail, and the latter changes the
    state. *)
Lemma updateEmployeeManager_not_found_counterexample :
  (99 ∉ id <$> employees mockState)
  ∧ updateEmployeeManager alwaysResolved mockState 99 (Some 1)
    = (mockState, inl ())
  ∧ (updateEmployeeManager alwaysResolved mockState 5 (Some 99)).2 = inl ()
  ∧ (updateEmployeeManager alwaysResolved mockState 5 (Some 99)).1 ≠ mockState.
Proof.
  split_and!.
  - intros Hin. by apply list_elem_of_In in Hin; simpl in Hin; intuition lia.
  - reflexivity.
  - reflexivity.
  - intros H. apply (f_equal (λ s, managerId <$> employees s !! 4%nat)) in H.
    vm_compute in H. congruence.
Qed.

(** ** handleDragEnd *)

(** C4, as the code has it.  When the integrity guard reports a cycle
    for a drop, on the collection the handler reads, [handleDragEnd]
    leaves the state as it is, whichever state that is by then; it shows
    the circular-structure alert when the two identifiers differ, and
    ignores the drop without any message when they are the same. *)
Theorem handleDragEnd_circular transport fuel rendered st active overId :
  wouldCreateCircularReference fuel rendered active overId = Some true →
  ∃ outcome,
    handleDragEnd transport fuel rendered st active (Some overId)
    = Some (outcome, st)
    ∧ (active ≠ overId → outcome = CircularAlert)
    ∧ (active = overId → outcome = Ignored).
Proof.
  intros Hguard. unfold handleDragEnd.
  destruct (decide (active = overId)) as [Heq|Hne].
  - exists Ignored. by split_and!.
  - rewrite Hguard. simpl. exists CircularAlert. by split_and!.
Qed.

Lemma handleDragEnd_circular_witness :
  wouldCreateCircularReference 10 (employees mockState) 1 5 = Some true
  ∧ ∃ outcome,
      handleDragEnd alwaysResolved 10 (employees mockState) mockState 1 (Some 5)
      = Some (outcome, mockState)
      ∧ (1 ≠ 5 → outcome = CircularAlert)
      ∧ (1 = 5 → outcome = Ignored).
Proof.
  split; [reflexivity|].
  apply (handleDragEnd_circular alwaysResolved 10 (employees mockState)
           mockState 1 5).
  reflexivity.
Defined.

(** C4 does not hold of a card dropped on itself: the guard reports a
    cycle for the pair, and [handleDragEnd] returns without the alert. *)
Lemma handleDragEnd_self_drop_counterexample :
  wouldCreateCircularReference 10 (employees mockState) 2 2 = Some true
  ∧ handleDragEnd alwaysResolved 10 (employees mockState) mockState 2 (Some 2)
    = Some (Ignored, mockState)
  ∧ handleDragEnd alwaysResolved 10 (employees mockState) mockState 2 (Some 2)
    ≠ Some (CircularAlert, mockState).
Proof. split_and!; [reflexivity | reflexivity | discriminate]. Qed.

(** ** buildTree *)

(** C8. In the forest of [buildTree], a record without parent reference
    and a record whose parent reference matches no record of the
    collection are both in the [roots] array: the node kept under the
    record's identifier is referenced there, and it carries the record's
    fields when identifiers are unique. *)
Theorem buildTree_root_policy employees e :
  e ∈ employees →
  managerId e = None
  ∨ (∃ m, managerId e = Some m ∧ m ∉ id <$> employees) →
  id e ∈ roots (buildTree employees)
  ∧ (∃ nd, employeeMap (buildTree employees) !! id e = Some nd
           ∧ id (fields nd) = id e)
  ∧ (uniqueIds employees →
       ∃ nd, employeeMap (buildTree employees) !! id e = Some nd
             ∧ fields nd = e).
Proof.
  intros He Hroot. split_and!.
  - rewrite buildTree_roots. apply list_elem_of_fmap_2.
    unfold rootRecords. rewrite list_elem_of_filter. split; [|done].
    unfold isRoot. destruct Hroot as [->|(m & -> & Hm)]; done.
  - rewrite buildTree_lookup.
    destruct (firstPass employees !! id e) as [nd0|] eqn:Hnd.
    + eexists. split; [done|]. simpl.
      by apply firstPass_lookup_Some in Hnd as (_ & _ & ?).
    + apply firstPass_lookup_None in Hnd. destruct Hnd.
      by apply list_elem_of_fmap_2.
  - intros Hu. rewrite buildTree_lookup_unique by done. by eexists.
Qed.

Lemma buildTree_root_policy_witness :
  (1 ∈ roots (buildTree mockEmployees))
  ∧ (2 ∈ roots (buildTree duplicatedEdge)).
Proof.
  split.
  - apply (buildTree_root_policy mockEmployees
             (Employee 1 "CEO" "Chief Executive Officer" "Executive" None)).
    + apply list_elem_of_here.
    + left. reflexivity.
  - apply (buildTree_root_policy duplicatedEdge
             (Employee 2 "CTO" "Chief Technology Officer" "Technology" (Some 1))).
    + apply list_elem_of_here.
    + right. exists 1. split; [reflexivity|].
      intros Hin. by apply list_elem_of_In in Hin; simpl in Hin; intuition lia.
Defined.

(** C2, as the code has it.  For a collection with unique identifiers
    and an acyclic parent relation, the nodes of the forest of
    [buildTree], every root with all below it, are the records of the
    collection, each one exactly once: their number is the number of
    records and no identifier comes twice. *)
Theorem buildTree_complete employees :
  uniqueIds employees → acyclic employees →
  ∃ nodes,
    forestNodes (length employees) (buildTree employees) = Some nodes
    ∧ nodes ≡ₚ employees
    ∧ NoDup (id <$> nodes)
    ∧ nodeCount (length employees) (buildTree employees)
      = Some (length employees).
Proof.
  intros Hu Hac.
  destruct (subtreeNodes_levelOrder employees (length employees)
              (rootRecords employees) Hu) as (ts & Hts & Hperm).
  { apply rootRecords_subseteq. }
  { apply acyclic_levelFrom_empty; [done | apply rootRecords_subseteq]. }
  rewrite acyclic_levelOrder_roots in Hperm by done.
  assert (Hnodes : forestNodes (length employees) (buildTree employees)
                   = Some (concat ts)).
  { unfold forestNodes. by rewrite buildTree_roots, Hts. }
  exists (concat ts). split_and!; [done | done | |].
  - by rewrite Hperm.
  - unfold nodeCount. rewrite Hnodes. simpl. by rewrite Hperm.
Qed.

Lemma buildTree_complete_witness :
  uniqueIds mockEmployees ∧ acyclic mockEmployees
  ∧ ∃ nodes,
      forestNodes 5 (buildTree mockEmployees) = Some nodes
      ∧ nodes ≡ₚ mockEmployees
      ∧ NoDup (id <$> nodes)
      ∧ nodeCount 5 (buildTree mockEmployees) = Some 5%nat.
Proof.
  assert (Hu : uniqueIds mockEmployees).
  { unfold uniqueIds. apply (bool_decide_unpack _). vm_compute. exact I. }
  assert (Hac : acyclic mockEmployees).
  { apply managersFirst_acyclic. reflexivity. }
  split; [exact Hu|]. split; [exact Hac|].
  apply (buildTree_complete mockEmployees Hu Hac).
Defined.

(** C2 does not hold of every non-empty collection: two records that
    report to each other are both some node's child, the forest has no
    root, and the count is zero whatever depth is read.  Nor does it hold
    of an acyclic collection in which an identifier comes twice: the one
    node kept for the identifier is pushed once for each of its records. *)
Lemma buildTree_cycle_counterexample :
  (mutualManagers ≠ [] ∧ uniqueIds mutualManagers
   ∧ ∀ fuel, forestNodes fuel (buildTree mutualManagers) = Some []
             ∧ nodeCount fuel (buildTree mutualManagers) = Some 0%nat
             ∧ nodeCount fuel (buildTree mutualManagers)
               ≠ Some (length mutualManagers))
  ∧ (acyclic duplicatedEdge
     ∧ fmap (M:=list) id <$> forestNodes 3 (buildTree duplicatedEdge)
       = Some [2; 3; 2; 3]
     ∧ nodeCount 3 (buildTree duplicatedEdge) = Some 4%nat
     ∧ length duplicatedEdge = 3%nat).
Proof.
  split; split_and!.
  - discriminate.
  - unfold uniqueIds. apply (bool_decide_unpack _). vm_compute. exact I.
  - intros fuel.
    assert (H : forestNodes fuel (buildTree mutualManagers) = Some []).
    { unfold forestNodes.
      replace (roots (buildTree mutualManagers)) with (@nil Z) by reflexivity.
      reflexivity. }
    unfold nodeCount. rewrite H. simpl. split_and!; [done | done | discriminate].
  - apply managersFirst_acyclic. reflexivity.
  - vm_compute. reflexivity.
  - vm_compute. reflexivity.
  - reflexivity.
Qed.

(** ** getAllReports *)

(** C3, as the code has it.  What [getAllReports] returns is the
    breadth-first enumeration: the direct reports of the identifier, then
    theirs, level by level up to the first empty level.  When identifiers
    are unique no record is in it twice. *)
Theorem getAllReports_level_order fuel employees rootId out :
  getAllReports fuel employees rootId = Some out →
  (∃ depth,
     out = levelOrder employees (directReports employees rootId) depth
     ∧ levelFrom employees (directReports employees rootId) depth = []
     ∧ ∀ k, (k < depth)%nat →
         levelFrom employees (directReports employees rootId) k ≠ [])
  ∧ (uniqueIds employees → NoDup out).
Proof.
  intros Hout. unfold getAllReports in Hout.
  apply loop_levels in Hout as (depth & Hout & Hempty & Hmin); [|done].
  csimpl in *. rewrite app_nil_r in *. split.
  - by exists depth.
  - intros Hu. subst out. apply levelOrder_NoDup; [done | | |].
    + apply directReports_subseteq.
    + by apply directReports_NoDup.
    + by apply (returning_apart employees rootId depth).
Qed.

Lemma getAllReports_level_order_witness :
  getAllReports 10 mockEmployees 1 = Some (drop 1 mockEmployees)
  ∧ uniqueIds mockEmployees
  ∧ (∃ depth,
       drop 1 mockEmployees
       = levelOrder mockEmployees (directReports mockEmployees 1) depth
       ∧ levelFrom mockEmployees (directReports mockEmployees 1) depth = []
       ∧ ∀ k, (k < depth)%nat →
           levelFrom mockEmployees (directReports mockEmployees 1) k ≠ [])
  ∧ NoDup (drop 1 mockEmployees).
Proof.
  assert (Hu : uniqueIds mockEmployees).
  { unfold uniqueIds. apply (bool_decide_unpack _). vm_compute. exact I. }
  destruct (getAllReports_level_order 10 mockEmployees 1 (drop 1 mockEmployees)
              eq_refl) as [H1 H2].
  split; [reflexivity|]. split; [exact Hu|]. split; [exact H1 | exact (H2 Hu)].
Defined.

(** C3 does not hold of a collection with a duplicated parent edge: the
    report of the two records with identifier 2 is enumerated twice. *)
Lemma getAllReports_duplicate_counterexample :
  NoDup duplicatedEdge
  ∧ ∃ out, getAllReports 10 duplicatedEdge 1 = Some out
           ∧ out = duplicatedEdge ++ drop 2 duplicatedEdge
           ∧ ¬ NoDup out.
Proof.
  split.
  - apply (bool_decide_unpack _). vm_compute. exact I.
  - eexists. split_and!; [reflexivity | reflexivity |].
    intros H. apply (bool_decide_pack _) in H. vm_compute in H. exact H.
Qed.

(** C10. On a collection whose parent relation is acyclic,
    [getAllReports] returns for every starting identifier once it is given
    enough fuel, and so does [wouldCreateCircularReference]. *)
Theorem getAllReports_terminates employees rootId :
  acyclic employees →
  ∃ fuel0 reports, ∀ fuel, (fuel0 ≤ fuel)%nat →
    getAllReports fuel employees rootId = Some reports
    ∧ ∀ newManagerId, ∃ b,
        wouldCreateCircularReference fuel employees rootId newManagerId = Some b.
Proof.
  intros Hac.
  destruct (loop_returns employees (length employees) [rootId] []) as (fuel0 & Hfuel).
  { csimpl. rewrite app_nil_r.
    apply acyclic_levelFrom_empty; [done | apply directReports_subseteq]. }
  exists fuel0. eexists. intros fuel Hle. split.
  - unfold getAllReports. by apply Hfuel.
  - intros newManagerId. unfold wouldCreateCircularReference, getAllReports.
    case_decide; [by eexists|]. rewrite Hfuel by done. by eexists.
Qed.

Lemma getAllReports_terminates_witness :
  acyclic mockEmployees
  ∧ ∃ fuel0 reports, ∀ fuel, (fuel0 ≤ fuel)%nat →
      getAllReports fuel mockEmployees 1 = Some reports
      ∧ ∀ newManagerId, ∃ b,
          wouldCreateCircularReference fuel mockEmployees 1 newManagerId = Some b.
Proof.
  assert (Hac : acyclic mockEmployees).
  { apply managersFirst_acyclic. reflexivity. }
  split; [exact Hac|].
  apply (getAllReports_terminates mockEmployees 1 Hac).
Defined.

(** * Further properties of the code *)

(** ** What getAllReports returns, and when *)

Section Descendants.
Variable employees : list employee.
Local Abbreviation direct := (directReports employees).

Lemma reportsTo_levelFrom rootId e :
  reportsTo employees rootId e ↔
  ∃ k, e ∈ levelFrom employees (direct rootId) k.
Proof.
  split.
  - induction 1 as [e He Hm|e p He Hm _ (k & Hk)].
    + exists 0%nat. simpl. by apply elem_of_directReports.
    + exists (S k). simpl. apply elem_of_nextLevel. by exists p.
  - intros (k & Hk). revert e Hk. induction k as [|k IH]; intros e Hk; simpl in Hk.
    + apply elem_of_directReports in Hk as [Hm He]. by apply reportsTo_direct.
    + apply elem_of_nextLevel in Hk as (p & Hp & Hm & He).
      eapply reportsTo_via; [done | done |]. by apply IH.
Qed.

Lemma reportsTo_elem_of rootId e : reportsTo employees rootId e → e ∈ employees.
Proof. by destruct 1. Qed.

(** A record that reports, directly or not, to a record of level [k] is
    itself in a deeper level. *)
Lemma tc_parent_levelFrom start a b k :
  tc (parent employees) a b → b ∈ levelFrom employees start k →
  ∃ j, a ∈ levelFrom employees start (k + S j).
Proof.
  induction 1 as [a b (Ha & _ & Hm)|a c b (Ha & _ & Hm) _ IH]; intros Hb.
  - exists 0%nat. rewrite Nat.add_1_r. simpl.
    apply elem_of_nextLevel. by exists b.
  - destruct (IH Hb) as (j & Hj). exists (S j).
    rewrite Nat.add_succ_r. simpl. apply elem_of_nextLevel. by exists c.
Qed.

(** A record of a level, with the chain of command from it up to level
    [0]; every record of the chain is below the identifier. *)
Lemma levelFrom_upchain_below rootId k e :
  e ∈ levelFrom employees (direct rootId) k →
  ∃ l top, upchain employees (e :: l) top ∧ length l = k
           ∧ ∀ a, a ∈ e :: l → reportsTo employees rootId a.
Proof.
  revert e. induction k as [|k IH]; intros e He; simpl in He.
  - apply elem_of_directReports in He as [Hm He].
    exists [], e. split_and!; [by apply upchain_one | done |].
    intros a ->%list_elem_of_singleton. by apply reportsTo_direct.
  - apply elem_of_nextLevel in He as (p & Hp & Hm & He).
    destruct (IH p Hp) as (l & top & Hc & Hlen & Hall).
    exists (p :: l), top. split_and!; [by apply upchain_cons | simpl; lia |].
    intros a [->|Ha]%elem_of_cons; [|by apply Hall].
    eapply reportsTo_via; [done | done |]. apply Hall, list_elem_of_here.
Qed.

Lemma upchain_NoDup_below l top :
  (∀ a, a ∈ l → ¬ tc (parent employees) a a) →
  upchain employees l top → NoDup l.
Proof.
  intros Hac Hc. induction Hc as [e He|e p l top He Hm Hc IH].
  - apply NoDup_singleton.
  - apply NoDup_cons. split.
    + intros Hin. apply (Hac e); [apply list_elem_of_here|].
      eapply upchain_tc; [|done]. by apply upchain_cons.
    + apply IH. intros a Ha. by apply Hac, list_elem_of_further.
Qed.

Lemma getAllReports_elem_of fuel rootId out e :
  getAllReports fuel employees rootId = Some out →
  e ∈ out ↔ reportsTo employees rootId e.
Proof.
  intros Hout. unfold getAllReports in Hout.
  apply loop_levels in Hout as (depth & -> & Hempty & _); [|done].
  csimpl in *. rewrite app_nil_r in *.
  rewrite elem_of_levelOrder, reportsTo_levelFrom. split.
  - intros (k & _ & Hk). by exists k.
  - intros (k & Hk). exists k. split; [|done].
    destruct (decide (k < depth)%nat) as [|Hge]; [done|].
    rewrite (levelFrom_empty_ge employees _ depth k) in Hk; [|done|lia].
    by apply elem_of_nil in Hk.
Qed.

(** X1. The records [getAllReports] returns are exactly the records
    below the identifier: those that report to it, directly or through
    other records of the collection.  All of them are records of the
    collection that have a manager. *)
Theorem getAllReports_descendants fuel rootId out :
  getAllReports fuel employees rootId = Some out →
  (∀ e, e ∈ out ↔ reportsTo employees rootId e)
  ∧ (∀ e, e ∈ out → e ∈ employees ∧ is_Some (managerId e)).
Proof.
  intros Hout. split.
  - intros e. by apply getAllReports_elem_of with fuel.
  - intros e He. apply (getAllReports_elem_of fuel rootId out e Hout) in He.
    destruct He as [e He Hm|e p He Hm _]; by split.
Qed.

(** X2. [getAllReports] returns, given enough fuel, exactly when no
    record below the identifier reports, directly or not, to itself; when
    one does, the loop goes on whatever the fuel. *)
Theorem getAllReports_returns_iff rootId :
  (∃ fuel out, getAllReports fuel employees rootId = Some out)
  ↔ (∀ e, reportsTo employees rootId e → ¬ tc (parent employees) e e).
Proof.
  split.
  - intros (fuel & out & Hout) e He Hcyc. unfold getAllReports in Hout.
    apply loop_levels in Hout as (depth & _ & Hempty & _); [|done].
    csimpl in *. rewrite app_nil_r in *.
    apply reportsTo_levelFrom in He as (k & Hk).
    destruct (tc_parent_levelFrom _ e e k Hcyc Hk) as (j & _).
    assert (Hstep : ∀ a i, a ∈ levelFrom employees (direct rootId) i → a = e →
              ∃ j', e ∈ levelFrom employees (direct rootId) (i + S j')).
    { intros a i Ha ->. by eapply tc_parent_levelFrom. }
    assert (Hfar : ∀ m, ∃ i, (m ≤ i)%nat ∧ e ∈ levelFrom employees (direct rootId) i).
    { induction m as [|m (i & Hi & Hin)]; [by exists k; split; [lia|]|].
      destruct (Hstep e i Hin eq_refl) as (j' & Hj').
      exists (i + S j')%nat. split; [lia | done]. }
    destruct (Hfar depth) as (i & Hi & Hin).
    rewrite (levelFrom_empty_ge employees _ depth i) in Hin; [|done..].
    by apply elem_of_nil in Hin.
  - intros Hac.
    assert (Hempty : levelFrom employees (direct rootId) (length employees) = []).
    { destruct (levelFrom employees (direct rootId) (length employees))
        as [|e l] eqn:Hl; [done|].
      assert (He : e ∈ levelFrom employees (direct rootId) (length employees)).
      { rewrite Hl. apply list_elem_of_here. }
      apply levelFrom_upchain_below in He as (l' & top & Hc & Hlen & Hall).
      assert (Hnd : NoDup (e :: l')).
      { eapply upchain_NoDup_below; [|done]. intros a Ha. by apply Hac, Hall. }
      assert (Hle : (length (e :: l') ≤ length employees)%nat).
      { apply submseteq_length, NoDup_submseteq; [done|].
        intros a Ha. by eapply upchain_subseteq. }
      simpl in Hle. lia. }
    destruct (loop_returns employees (length employees) [rootId] []) as (fuel0 & Hfuel).
    { csimpl. by rewrite app_nil_r. }
    exists fuel0. eexists. unfold getAllReports. by apply Hfuel.
Qed.

(** X3. [getAllReports] returns the empty array exactly when no record
    has the identifier as its manager (a leaf, or an identifier that
    names nobody), and it takes two evaluations of the loop condition. *)
Theorem getAllReports_empty fuel rootId :
  getAllReports fuel employees rootId = Some []
  ↔ (2 ≤ fuel)%nat ∧ ∀ e, e ∈ employees → managerId e ≠ Some rootId.
Proof.
  assert (Hdir : direct rootId = [] ↔
            ∀ e, e ∈ employees → managerId e ≠ Some rootId).
  { split.
    - intros Hd e He Hm.
      assert (Hin : e ∈ direct rootId) by by apply elem_of_directReports.
      rewrite Hd in Hin. by apply elem_of_nil in Hin.
    - intros Hno. destruct (direct rootId) as [|e l] eqn:Hd; [done|].
      assert (Hin : e ∈ direct rootId) by (rewrite Hd; apply list_elem_of_here).
      apply elem_of_directReports in Hin as [Hm He]. by destruct (Hno e He). }
  rewrite <- Hdir. unfold getAllReports. split.
  - intros Hout.
    assert (Hd : direct rootId = []).
    { apply loop_levels in Hout as (depth & Hout & Hempty & _); [|done].
      csimpl in *. rewrite app_nil_r in *.
      destruct depth as [|depth]; [done|]. simpl in Hout.
      symmetry in Hout. by apply app_eq_nil in Hout as [? _]. }
    split; [|done].
    destruct fuel as [|[|fuel]]; [done | | lia].
    simpl in Hout. done.
  - intros [Hfuel Hd]. destruct fuel as [|[|fuel]]; [lia..|].
    simpl. by rewrite Hd.
Qed.
End Descendants.

(** ** The guard and the acyclic invariant *)

Section Guard.
Variable employees : list employee.

Lemma guard_true_iff fuel x y b :
  wouldCreateCircularReference fuel employees x y = Some b →
  b = true ↔ x = y ∨ ∃ q, reportsTo employees x q ∧ id q = y.
Proof.
  unfold wouldCreateCircularReference. case_decide as Hxy.
  - intros [= <-]. split; [by left | done].
  - destruct (getAllReports fuel employees x) as [out|] eqn:Hout; [|done].
    simpl. intros [= <-]. rewrite some_id_true, list_elem_of_fmap. split.
    + intros (q & -> & Hq). right. exists q. split; [|done].
      by apply (getAllReports_elem_of employees fuel x out).
    + intros [?|(q & Hq & <-)]; [done|]. exists q. split; [done|].
      by apply (getAllReports_elem_of employees fuel x out).
Qed.

Lemma guard_false fuel x y :
  wouldCreateCircularReference fuel employees x y = Some false →
  x ≠ y ∧ ∀ q, reportsTo employees x q → id q ≠ y.
Proof.
  intros Hg. pose proof (guard_true_iff fuel x y false Hg) as [_ Hiff].
  split.
  - intros Hxy. by discriminate Hiff; left.
  - intros q Hq Hid. by discriminate Hiff; right; exists q.
Qed.

Lemma reportsTo_tc a b :
  reportsTo employees (id b) a → b ∈ employees → tc (parent employees) a b.
Proof.
  intros Hr Hb. induction Hr as [e He Hm|e p He Hm Hp IH].
  - by apply tc_once.
  - eapply tc_l; [|done]. split_and!; [done | | done].
    by eapply reportsTo_elem_of.
Qed.

Lemma elem_of_reparented x m r :
  r ∈ reparented employees x m ↔
  ∃ e, e ∈ employees
       ∧ r = if decide (id e = x)
             then Employee (id e) (name e) (designation e) (team e) m
             else e.
Proof.
  unfold reparented. simpl. rewrite list_elem_of_fmap. split.
  - intros (e & -> & He). exists e. split; [done|]. by case_decide.
  - intros (e & He & ->). exists e. split; [|done]. by case_decide.
Qed.

Lemma reparented_other x m r :
  r ∈ reparented employees x m → id r ≠ x → r ∈ employees.
Proof.
  intros (e & He & ->)%elem_of_reparented. case_decide; simpl; [done|].
  by intros _.
Qed.

Lemma reparented_target x m r :
  r ∈ reparented employees x m → id r = x → managerId r = m.
Proof.
  intros (e & He & ->)%elem_of_reparented. by case_decide.
Qed.

Lemma reparented_ids x m :
  id <$> reparented employees x m = id <$> employees.
Proof.
  unfold reparented. simpl. rewrite <- list_fmap_compose.
  apply list_fmap_ext. intros _ e _. simpl. by case_decide.
Qed.

(** A path of the reparented collection that starts off the moved
    identifier follows the old parent references until it ends or meets
    a record with the moved identifier. *)
Lemma reparented_path x m a b :
  tc (parent (reparented employees x m)) a b → id a ≠ x →
  reportsTo employees (id b) a
  ∨ ∃ c, id c = x ∧ reportsTo employees x a
         ∧ tc (parent (reparented employees x m)) a c
         ∧ (c = b ∨ tc (parent (reparented employees x m)) c b).
Proof.
  induction 1 as [a b Hab|a c b Hac Hcb IH]; intros Ha.
  - left. destruct Hab as (Hin & _ & Hm).
    apply reportsTo_direct; [by eapply reparented_other | done].
  - pose proof Hac as (Hin & _ & Hm).
    apply reparented_other in Hin; [|done].
    destruct (decide (id c = x)) as [Hc|Hc].
    + right. exists c. split_and!; [done | | by apply tc_once | by right].
      apply reportsTo_direct; [done | congruence].
    + destruct (IH Hc) as [Hl|(c' & Hc' & Hr & Hac' & Hc'b)].
      * left. by eapply reportsTo_via.
      * right. exists c'. split_and!; [done | | | done].
        -- by eapply reportsTo_via.
        -- by eapply tc_l.
Qed.

(** Giving the records with identifier [x] the manager [m] keeps the
    collection acyclic when [m] is no manager at all, or an identifier
    other than [x] that no record below [x] has. *)
Lemma reparented_acyclic x m :
  acyclic employees →
  (∀ y, m = Some y → x ≠ y ∧ ∀ q, reportsTo employees x q → id q ≠ y) →
  acyclic (reparented employees x m).
Proof.
  intros Hac Hm r Hcyc.
  assert (∃ c, id c = x ∧ tc (parent (reparented employees x m)) c c)
    as (c & Hc & Hcc).
  { destruct (decide (id r = x)) as [Hr|Hr]; [by exists r|].
    destruct (reparented_path x m r r Hcyc Hr) as [Hl|(c & Hc & _ & Hrc & [->|Hcr])].
    - destruct (Hac r). apply reportsTo_tc; [done|].
      apply (reparented_other x m); [|done].
      inversion Hcyc as [? ? (? & _)|? ? ? (? & _)]; by subst.
    - done.
    - exists c. split; [done|]. by etrans. }
  assert (Hin : c ∈ reparented employees x m).
  { inversion Hcc as [? ? (? & _)|? ? ? (? & _)]; by subst. }
  pose proof (reparented_target x m c Hin Hc) as Hmc.
  assert (∃ q, managerId c = Some (id q)
               ∧ (q = c ∨ tc (parent (reparented employees x m)) q c))
    as (q & Hq & Hqc).
  { inversion Hcc as [? ? (_ & _ & ?)|? q ? (_ & _ & ?) ?]; subst.
    - exists c. split; [done | by left].
    - exists q. split; [done | by right]. }
  rewrite Hmc in Hq. destruct (Hm (id q) Hq) as [Hne Hbelow].
  destruct Hqc as [->|Hqc]; [congruence|].
  destruct (reparented_path x m q c Hqc) as [Hl|(_ & _ & Hr & _)]; [congruence | |].
  - rewrite Hc in Hl. by apply (Hbelow q).
  - by apply (Hbelow q).
Qed.
End Guard.

Lemma handleDragEnd_cases transport fuel rendered st active over outcome st' :
  handleDragEnd transport fuel rendered st active over = Some (outcome, st') →
  (outcome ≠ Updated ∧ st' = st)
  ∨ (∃ overId, over = Some overId ∧ outcome = Updated
       ∧ wouldCreateCircularReference fuel rendered active overId
         = Some false
       ∧ transport active (Some overId) = Resolved
       ∧ st' = State (reparented (employees st) active (Some overId))
                 (loading st) (error st) (searchTerm st) (selectedTeam st)).
Proof.
  unfold handleDragEnd. destruct over as [overId|]; [|by intros [= <- <-]; left].
  case_decide; [by intros [= <- <-]; left|].
  destruct (wouldCreateCircularReference fuel rendered active overId)
    as [[|]|] eqn:Hg; simpl; [by intros [= <- <-]; left | | done].
  unfold updateEmployeeManager.
  destruct (transport active (Some overId)) eqn:Ht; intros [= <- <-].
  - right. exists overId. by split_and!.
  - by left.
Qed.

(** X4. When [wouldCreateCircularReference] returns, it returns [true]
    exactly when the two identifiers are the same or some record below
    the employee in the hierarchy has the identifier of the proposed
    manager, and [false] exactly when they differ and no record below the
    employee has it. *)
Theorem wouldCreateCircularReference_below fuel employees x y b :
  wouldCreateCircularReference fuel employees x y = Some b →
  (b = true ↔ x = y ∨ ∃ q, reportsTo employees x q ∧ id q = y)
  ∧ (b = false ↔ x ≠ y ∧ ∀ q, reportsTo employees x q → id q ≠ y).
Proof.
  intros Hg. split; [by apply (guard_true_iff employees fuel)|].
  split.
  - intros ->. by apply (guard_false employees fuel).
  - intros [Hxy Hbelow]. destruct b; [|done].
    destruct (proj1 (guard_true_iff employees fuel x y true Hg) eq_refl)
      as [?|(q & Hq & Hid)]; [done|]. by destruct (Hbelow q Hq).
Qed.

(** X5. A drop whose update is dispatched on the state that the handler
    has read, no other update having landed in between, leaves an acyclic
    collection acyclic: what the guard lets through creates no cycle
    there. *)
Theorem handleDragEnd_keeps_acyclic transport fuel st active over outcome st' :
  handleDragEnd transport fuel (employees st) st active over
  = Some (outcome, st') →
  acyclic (employees st) → acyclic (employees st').
Proof.
  intros [[_ ->]|(overId & _ & _ & Hg & _ & ->)]%handleDragEnd_cases Hac; [done|].
  simpl. apply reparented_acyclic; [done|].
  intros y [= <-]. by apply (guard_false _ fuel).
Qed.

(** X6. A drop changes nothing unless it ends in the update, and then it
    changes manager references only: the identifiers, names, designations
    and teams of the collection, in order, and the rest of the state are
    what they were. *)
Theorem handleDragEnd_frame transport fuel rendered st active over outcome st' :
  handleDragEnd transport fuel rendered st active over = Some (outcome, st') →
  (outcome ≠ Updated → st' = st)
  ∧ (λ e, (id e, name e, designation e, team e)) <$> employees st'
    = (λ e, (id e, name e, designation e, team e)) <$> employees st
  ∧ loading st' = loading st ∧ error st' = error st
  ∧ searchTerm st' = searchTerm st ∧ selectedTeam st' = selectedTeam st.
Proof.
  intros [[Hno ->]|(overId & _ & -> & _ & _ & ->)]%handleDragEnd_cases.
  - by split_and!.
  - split_and!; try done. simpl. unfold reparented. simpl.
    rewrite <- list_fmap_compose. apply list_fmap_ext.
    intros _ e _. simpl. by case_decide.
Qed.


(** X8. Once a drop, dispatched on the state that the handler has read,
    has moved an employee under a new manager, a drop of that manager on
    the employee that reads the new collection is refused with the
    circular-structure alert and changes nothing, whatever has become of
    the state by then. *)
Theorem handleDragEnd_reverse_refused transport transport' fuel st a b st' :
  acyclic (employees st) →
  a ∈ id <$> employees st →
  handleDragEnd transport fuel (employees st) st a (Some b)
  = Some (Updated, st') →
  ∃ fuel0, ∀ fuel' st'', (fuel0 ≤ fuel')%nat →
    handleDragEnd transport' fuel' (employees st') st'' b (Some a)
    = Some (CircularAlert, st'').
Proof.
  intros Hac Ha Hdrop.
  apply handleDragEnd_cases in Hdrop
    as [[? _]|(? & [= <-] & _ & Hg & _ & ->)]; [done|].
  apply guard_false in Hg as [Hab Hbelow].
  assert (Hac' : acyclic (reparented (employees st) a (Some b))).
  { apply reparented_acyclic; [done|]. by intros y [= <-]. }
  apply list_elem_of_fmap in Ha as (e & -> & He).
  set (r := Employee (id e) (name e) (designation e) (team e) (Some b)).
  assert (Hr : reportsTo (reparented (employees st) (id e) (Some b)) b r).
  { apply reportsTo_direct; [|done]. apply elem_of_reparented.
    exists e. split; [done|]. by rewrite decide_True. }
  destruct (getAllReports_acyclic_returns _ b Hac') as (fuel0 & out & Hout).
  exists fuel0. intros fuel' st'' Hle. unfold handleDragEnd. simpl.
  rewrite decide_False by done.
  assert (Hguard : wouldCreateCircularReference fuel'
            (reparented (employees st) (id e) (Some b)) b (id e)
            = Some (some_id (id e) out)).
  { unfold wouldCreateCircularReference. rewrite decide_False by done.
    by rewrite Hout. }
  rewrite Hguard. simpl.
  apply guard_true_iff in Hguard as [_ ->]; [done|].
  right. by exists r.
Qed.

(** Two drops that have both read the same collection: each passes the
    guard there, the second update is dispatched on the state the first
    one has left, and the two employees end up reporting to each
    other. *)
Example handleDragEnd_overlapping_drops :
  ∃ st1 st2,
    handleDragEnd alwaysResolved 10 mockEmployees mockState 2 (Some 3)
    = Some (Updated, st1)
    ∧ handleDragEnd alwaysResolved 10 mockEmployees st1 3 (Some 2)
      = Some (Updated, st2)
    ∧ ¬ acyclic (employees st2).
Proof.
  eexists _, _. split_and!; [reflexivity | reflexivity |].
  intros Hac. simpl in Hac.
  set (r2 := Employee 2 "CTO" "Chief Technology Officer" "Technology" (Some 3)).
  set (r3 := Employee 3 "CFO" "Chief Financial Officer" "Finance" (Some 2)).
  apply (Hac r2).
  assert (H2 : r2 ∈ reparented (reparented mockEmployees 2 (Some 3)) 3 (Some 2)).
  { apply list_elem_of_further, list_elem_of_here. }
  assert (H3 : r3 ∈ reparented (reparented mockEmployees 2 (Some 3)) 3 (Some 2)).
  { do 2 apply list_elem_of_further. apply list_elem_of_here. }
  eapply tc_l; [|apply tc_once]; by split_and!.
Qed.

(** X9. Making an employee a root, which [updateEmployeeManager] does
    when it is given no manager, leaves an acyclic collection acyclic. *)
Theorem updateEmployeeManager_root_keeps_acyclic transport st employeeId :
  acyclic (employees st) →
  acyclic (employees (updateEmployeeManager transport st employeeId None).1).
Proof.
  intros Hac. unfold updateEmployeeManager.
  destruct (transport employeeId None); [|done].
  apply (reparented_acyclic (employees st) employeeId None); [done|].
  by intros y [=].
Qed.

(** ** findEmployeeById *)

Lemma findEmployeeById_spec employees i :
  match findEmployeeById employees i with
  | Some e => ∃ l1 l2, employees = l1 ++ e :: l2 ∧ id e = i ∧ i ∉ id <$> l1
  | None => i ∉ id <$> employees
  end.
Proof.
  unfold findEmployeeById. induction employees as [|a l IH]; simpl.
  - apply not_elem_of_nil.
  - destruct (bool_decide (id a = i)) eqn:Ha.
    + apply bool_decide_eq_true in Ha. exists [], l.
      split_and!; [done | done | apply not_elem_of_nil].
    + apply bool_decide_eq_false in Ha.
      destruct (find (λ emp, bool_decide (id emp = i)) l) as [e|].
      * destruct IH as (l1 & l2 & -> & He & Hl1). exists (a :: l1), l2.
        split_and!; [done | done |]. csimpl. rewrite not_elem_of_cons.
        split; [congruence | done].
      * csimpl. rewrite not_elem_of_cons. split; [congruence | done].
Qed.

(** X10. [findEmployeeById] returns the first record of the collection
    that has the identifier, and [null] exactly when no record has it. *)
Theorem findEmployeeById_first employees i :
  match findEmployeeById employees i with
  | Some e => ∃ l1 l2, employees = l1 ++ e :: l2 ∧ id e = i ∧ i ∉ id <$> l1
  | None => i ∉ id <$> employees
  end
  ∧ (findEmployeeById employees i = None ↔ i ∉ id <$> employees).
Proof.
  pose proof (findEmployeeById_spec employees i) as Hf.
  split; [done|].
  destruct (findEmployeeById employees i) as [e|]; [|done].
  destruct Hf as (l1 & l2 & -> & <- & _). split; [done|].
  intros Hno. destruct Hno. apply list_elem_of_fmap_2.
  apply elem_of_app. right. apply list_elem_of_here.
Qed.

(** X11. In a collection with unique identifiers, looking a record up by
    its identifier gives the record back. *)
Theorem findEmployeeById_unique employees e :
  uniqueIds employees → e ∈ employees →
  findEmployeeById employees (id e) = Some e.
Proof.
  intros Hu He. pose proof (findEmployeeById_spec employees (id e)) as Hf.
  destruct (findEmployeeById employees (id e)) as [e'|].
  - destruct Hf as (l1 & l2 & -> & Hid & _). f_equal.
    apply (uniqueIds_inj _ Hu); [|done|done].
    apply elem_of_app. right. apply list_elem_of_here.
  - destruct Hf. by apply list_elem_of_fmap_2.
Qed.

(** ** filterEmployees *)

Section Filter.
Variable toLowerCase : string → string.
Variable toString : Z → string.
Variable employees : list employee.
Local Abbreviation keeps := (λ (searchTerm selectedTeam : string) (e : employee),
  (truthy searchTerm = true →
     matchesTerm toLowerCase toString (toLowerCase searchTerm) e = true)
  ∧ (truthy selectedTeam = true → team e = selectedTeam)).

Lemma filter_bool {A} (f : A → bool) (l : list A) :
  List.filter f l = filter (λ x, f x = true) l.
Proof.
  induction l as [|x l IH]; simpl; [done|]. rewrite filter_cons, IH.
  destruct (f x); by case_decide.
Qed.

Lemma filterEmployees_filter (l : list employee) searchTerm selectedTeam :
  filterEmployees toLowerCase toString l searchTerm selectedTeam
  = filter (keeps searchTerm selectedTeam) l.
Proof.
  unfold filterEmployees.
  destruct (truthy searchTerm), (truthy selectedTeam).
  - rewrite filter_bool, list_filter_filter. apply list_filter_iff. intros ?. intuition congruence.
  - rewrite filter_bool. apply list_filter_iff. intros ?. intuition congruence.
  - apply list_filter_iff. intros ?. intuition congruence.
  - symmetry. induction l as [|x l IH]; [done|].
    rewrite filter_cons_True, IH; [done|]. intuition congruence.
Qed.

(** X12. [filterEmployees] only drops records: what it returns is the
    collection with some records left out, the others in their order. *)
Theorem filterEmployees_sublist searchTerm selectedTeam :
  filterEmployees toLowerCase toString employees searchTerm selectedTeam
  `sublist_of` employees.
Proof. rewrite filterEmployees_filter. apply sublist_filter. Qed.

(** X14. The search is blind to the case of the term: two terms to which
    the engine's [toLowerCase] gives the same lower-case form, both empty
    or both not, select the same records. *)
Theorem filterEmployees_case_insensitive term1 term2 selectedTeam :
  truthy term1 = truthy term2 →
  toLowerCase term1 = toLowerCase term2 →
  filterEmployees toLowerCase toString employees term1 selectedTeam
  = filterEmployees toLowerCase toString employees term2 selectedTeam.
Proof.
  intros Htruthy Hlow. unfold filterEmployees. by rewrite Htruthy, Hlow.
Qed.

(** X15. Filtering in two steps, in either order, is filtering once with
    both criteria; filtering again with the same criteria changes
    nothing. *)
Theorem filterEmployees_compose searchTerm selectedTeam :
  filterEmployees toLowerCase toString
    (filterEmployees toLowerCase toString employees searchTerm EmptyString)
    EmptyString selectedTeam
  = filterEmployees toLowerCase toString employees searchTerm selectedTeam
  ∧ filterEmployees toLowerCase toString
      (filterEmployees toLowerCase toString employees EmptyString selectedTeam)
      searchTerm EmptyString
    = filterEmployees toLowerCase toString employees searchTerm selectedTeam
  ∧ filterEmployees toLowerCase toString
      (filterEmployees toLowerCase toString employees searchTerm selectedTeam)
      searchTerm selectedTeam
    = filterEmployees toLowerCase toString employees searchTerm selectedTeam.
Proof.
  rewrite !filterEmployees_filter, !list_filter_filter.
  split_and!; apply list_filter_iff; intros ?; simpl; intuition congruence.
Qed.

(** X16. Selecting a team never adds a record to what the search alone
    returns. *)
Theorem filterEmployees_team_narrows searchTerm selectedTeam :
  filterEmployees toLowerCase toString employees searchTerm selectedTeam
  `sublist_of`
  filterEmployees toLowerCase toString employees searchTerm EmptyString.
Proof.
  assert (filterEmployees toLowerCase toString employees searchTerm selectedTeam
          = filterEmployees toLowerCase toString
              (filterEmployees toLowerCase toString employees
                 searchTerm EmptyString)
              EmptyString selectedTeam) as ->.
  { rewrite !filterEmployees_filter, !list_filter_filter.
    apply list_filter_iff; intros ?; simpl; intuition congruence. }
  rewrite (filterEmployees_filter (filterEmployees _ _ _ _ _)).
  apply sublist_filter.
Qed.
End Filter.

(** ** getUniqueTeams *)

Lemma setFromArray_snoc `{EqDecision A} (l : list A) x :
  setFromArray (l ++ [x])
  = if decide (x ∈ setFromArray l) then setFromArray l
    else setFromArray l ++ [x].
Proof. unfold setFromArray. by rewrite foldl_snoc. Qed.

Lemma elem_of_setFromArray `{EqDecision A} (l : list A) x :
  x ∈ setFromArray l ↔ x ∈ l.
Proof.
  induction l as [|y l IH] using rev_ind; [done|].
  rewrite setFromArray_snoc, elem_of_app, list_elem_of_singleton.
  case_decide as Hy.
  - rewrite IH. split; [by left|]. intros [?| ->]; [done | by apply IH].
  - by rewrite elem_of_app, list_elem_of_singleton, IH.
Qed.

Lemma NoDup_setFromArray `{EqDecision A} (l : list A) :
  NoDup (setFromArray l).
Proof.
  induction l as [|y l IH] using rev_ind; [apply NoDup_nil_2|].
  rewrite setFromArray_snoc. case_decide as Hy; [done|].
  apply NoDup_app. split_and!; [done | | apply NoDup_singleton].
  intros x Hx ->%list_elem_of_singleton. done.
Qed.

Section Teams.
Variable codeUnitLe : relation string.
Context `{!RelDecision codeUnitLe, !PartialOrder codeUnitLe, !Total codeUnitLe}.
Variable toLowerCase : string → string.
Variable toString : Z → string.

Lemma elem_of_getUniqueTeams employees t :
  t ∈ getUniqueTeams codeUnitLe employees ↔ ∃ e, e ∈ employees ∧ team e = t.
Proof.
  unfold getUniqueTeams, sort.
  rewrite merge_sort_Permutation, elem_of_setFromArray, list_elem_of_fmap.
  split; [intros (e & -> & ?) | intros (e & ? & <-)]; by exists e.
Qed.

(** X17. [getUniqueTeams] returns the team labels of the collection, and
    only them, each one once, in the ascending order of the engine's
    comparison of strings. *)
Theorem getUniqueTeams_sorted employees :
  StronglySorted codeUnitLe (getUniqueTeams codeUnitLe employees)
  ∧ NoDup (getUniqueTeams codeUnitLe employees)
  ∧ ∀ t, t ∈ getUniqueTeams codeUnitLe employees
         ↔ ∃ e, e ∈ employees ∧ team e = t.
Proof.
  split_and!.
  - apply StronglySorted_merge_sort; apply _.
  - unfold getUniqueTeams, sort. rewrite merge_sort_Permutation.
    apply NoDup_setFromArray.
  - apply elem_of_getUniqueTeams.
Qed.

(** X18. [getUniqueTeams] is the only list of the team labels that is
    ascending in the engine's order and without repetition: the result
    does not depend on the order of the records, nor on how the engine
    sorts. *)
Theorem getUniqueTeams_unique employees l :
  Sorted codeUnitLe l → NoDup l →
  (∀ t, t ∈ l ↔ ∃ e, e ∈ employees ∧ team e = t) →
  getUniqueTeams codeUnitLe employees = l.
Proof.
  intros Hs Hnd Hl. apply (Sorted_unique codeUnitLe); [| done |].
  - apply Sorted_merge_sort; apply _.
  - apply NoDup_Permutation; [| done |].
    + unfold getUniqueTeams, sort. rewrite merge_sort_Permutation.
      apply NoDup_setFromArray.
    + intros t. by rewrite elem_of_getUniqueTeams, Hl.
Qed.

(** X19. Every non-empty label that the team filter offers selects at
    least one employee, and only employees of that team. *)
Theorem teams_option_selects st t :
  t ∈ teams codeUnitLe st → t ≠ EmptyString →
  filterEmployees toLowerCase toString (employees st) EmptyString t ≠ []
  ∧ ∀ e, e ∈ filterEmployees toLowerCase toString (employees st) EmptyString t →
         team e = t.
Proof.
  intros (e & He & Ht)%elem_of_getUniqueTeams Hne.
  assert (Htr : truthy t = true) by (by destruct t).
  split.
  - intros Hnil.
    assert (Hin : e ∈ filterEmployees toLowerCase toString
                        (employees st) EmptyString t).
    { rewrite filterEmployees_filter, list_elem_of_filter. simpl.
      split; [|done]. by split. }
    rewrite Hnil in Hin. by apply elem_of_nil in Hin.
  - intros e'. rewrite filterEmployees_filter, list_elem_of_filter. simpl.
    intros [[_ Hteam] _]. by apply Hteam.
Qed.
End Teams.

(** ** More on buildTree *)

Section BuildTreeMore.
Variable employees : list employee.
Local Abbreviation direct := (directReports employees).
Local Abbreviation R := (rootRecords employees).

Lemma firstPass_app l1 l2 x :
  x ∉ id <$> l2 → firstPass (l1 ++ l2) !! x = firstPass l1 !! x.
Proof.
  induction l2 as [|e l2 IH] using rev_ind; intros Hx.
  - by rewrite app_nil_r.
  - rewrite fmap_app, not_elem_of_app in Hx. destruct Hx as [Hx Hxe].
    rewrite app_assoc, firstPass_snoc, lookup_insert_ne; [by apply IH|].
    intros Heq. apply Hxe. rewrite <- Heq. csimpl. apply list_elem_of_here.
Qed.

(** X20. The shape of the forest, for every input: [roots] refers, in
    input order, to the records without manager or with a manager that
    no record has; the node of an identifier refers, in input order, to
    the records that have it as manager; the map has a node for the
    identifiers of the input and no other, so no reference dangles. *)
Theorem buildTree_shape :
  roots (buildTree employees) = id <$> filter (isRoot employees) employees
  ∧ (∀ x, children <$> employeeMap (buildTree employees) !! x
          = if decide (x ∈ id <$> employees)
            then Some (id <$> direct x) else None)
  ∧ (∀ ref, ref ∈ roots (buildTree employees) →
            is_Some (employeeMap (buildTree employees) !! ref))
  ∧ (∀ x nd ref, employeeMap (buildTree employees) !! x = Some nd →
                 ref ∈ children nd →
                 is_Some (employeeMap (buildTree employees) !! ref)).
Proof.
  assert (Hkey : ∀ x, x ∈ id <$> employees →
            is_Some (employeeMap (buildTree employees) !! x)).
  { intros x Hx. rewrite buildTree_lookup.
    destruct (firstPass employees !! x) eqn:Hf; [by eexists|].
    by apply firstPass_lookup_None in Hf. }
  split_and!.
  - apply buildTree_roots.
  - intros x. rewrite buildTree_lookup. case_decide as Hx.
    + destruct (firstPass employees !! x) eqn:Hf; [done|].
      by apply firstPass_lookup_None in Hf.
    + apply firstPass_lookup_None in Hx. by rewrite Hx.
  - intros ref Href. apply Hkey. rewrite buildTree_roots in Href.
    apply list_elem_of_fmap in Href as (e & -> & He).
    apply list_elem_of_fmap_2. by apply rootRecords_subseteq.
  - intros x nd ref Hx Href. apply Hkey. rewrite buildTree_lookup in Hx.
    destruct (firstPass employees !! x); [|done]. simpl in Hx.
    injection Hx as <-. simpl in Href.
    apply list_elem_of_fmap in Href as (e & -> & He).
    apply list_elem_of_fmap_2. by eapply directReports_subseteq.
Qed.

(** X21. When several records have the same identifier, the node kept
    for it carries the fields of the last of them. *)
Theorem buildTree_last_wins l1 e l2 :
  employees = l1 ++ e :: l2 → id e ∉ id <$> l2 →
  fields <$> employeeMap (buildTree employees) !! id e = Some e.
Proof.
  intros Hl Hlast. rewrite buildTree_lookup, Hl.
  change (l1 ++ e :: l2) with (l1 ++ [e] ++ l2). rewrite app_assoc.
  rewrite firstPass_app by done.
  by rewrite firstPass_snoc, lookup_insert_eq.
Qed.

Lemma childCount_replace (m : gmap Z node) k nd nd' :
  m !! k = Some nd →
  (childCount (<[k:=nd']> m) + length (children nd)
   = childCount m + length (children nd'))%nat.
Proof.
  intros Hk. unfold childCount.
  rewrite (map_fold_delete_L _ _ k nd m); [|intros; lia|done].
  rewrite <- insert_delete_eq.
  rewrite map_fold_insert_L; [lia | intros; lia | apply lookup_delete_eq].
Qed.

Lemma childCount_no_children (m : gmap Z node) :
  (∀ k nd, m !! k = Some nd → children nd = []) → childCount m = 0%nat.
Proof.
  unfold childCount.
  apply (map_fold_weak_ind
    (λ r m, (∀ k nd, m !! k = Some nd → children nd = []) → r = 0%nat)).
  - done.
  - intros i x m' r Hi IH Hall.
    rewrite (Hall i x) by apply lookup_insert_eq. rewrite IH; [done|].
    intros k nd Hk. apply (Hall k). rewrite lookup_insert_ne; [done|].
    intros ->. congruence.
Qed.

Lemma secondPass_count m0 done :
  let r := foldl secondPass_step (m0, []) done in
  (length r.2 + childCount r.1 = length done + childCount m0)%nat.
Proof.
  induction done as [|emp done IH] using rev_ind; simpl; [done|].
  rewrite foldl_snoc, length_app. simpl in *.
  destruct (foldl secondPass_step (m0, []) done) as [m rts]. simpl in *.
  unfold secondPass_step.
  destruct (managerId emp) as [mid|]; [destruct (m !! mid) as [nd|] eqn:Hmid|];
    simpl; rewrite ?length_app; simpl; try lia.
  pose proof (childCount_replace m mid nd
    (Node (fields nd) (children nd ++ [id emp])) Hmid) as Hc.
  simpl in Hc. rewrite length_app in Hc. simpl in Hc. lia.
Qed.

(** X22. For every input, [buildTree] refers to the node of each record
    exactly once: the references in [roots] and in all the [children]
    arrays are as many as the records. *)
Theorem buildTree_reference_count :
  (length (roots (buildTree employees))
   + childCount (employeeMap (buildTree employees))
   = length employees)%nat.
Proof.
  unfold buildTree. destruct employees as [|e l] eqn:He; [done|].
  rewrite <- He. pose proof (secondPass_count (firstPass employees) employees) as Hc.
  destruct (foldl secondPass_step (firstPass employees, []) employees) as [m rts].
  simpl in *. rewrite Hc, childCount_no_children; [lia|].
  intros k nd Hk. by apply firstPass_lookup_Some in Hk as (? & _).
Qed.
End BuildTreeMore.

(** ** The forest that is rendered *)

Lemma acyclic_subseteq (l l' : list employee) :
  (∀ e, e ∈ l' → e ∈ l) → acyclic l → acyclic l'.
Proof.
  intros Hsub Hac e Hcyc. apply (Hac e).
  apply (tc_congruence (λ x, x) (parent l)) in Hcyc; [done|].
  intros a b (Ha & Hb & Hm). split_and!; [by apply Hsub | by apply Hsub | done].
Qed.

Lemma acyclic_has_root employees :
  acyclic employees → employees ≠ [] → rootRecords employees ≠ [].
Proof.
  intros Hac Hne Hroots. destruct employees as [|e l] eqn:He; [done|].
  rewrite <- He in *.
  destruct (acyclic_climb employees (length employees) e [] e Hac) as (k & Hk).
  - apply upchain_one. rewrite He. apply list_elem_of_here.
  - simpl. lia.
  - rewrite Hroots, levelFrom_nil in Hk. by apply elem_of_nil in Hk.
Qed.

(** X23. The forest of a non-empty acyclic collection has a root. *)
Theorem buildTree_has_root employees :
  acyclic employees → employees ≠ [] → roots (buildTree employees) ≠ [].
Proof.
  intros Hac Hne. rewrite buildTree_roots.
  pose proof (acyclic_has_root employees Hac Hne) as Hr.
  by destruct (rootRecords employees).
Qed.

(** X24. When the collection of the state is acyclic, the chart has no
    root to render exactly when the search and the team filter leave no
    employee: a manager that is filtered out never hides its reports. *)
Theorem tree_empty_iff toLowerCase toString st :
  acyclic (employees st) →
  roots (tree toLowerCase toString st) = []
  ↔ filteredEmployees toLowerCase toString st = [].
Proof.
  intros Hac. unfold tree. split.
  - intros Hroots.
    destruct (decide (filteredEmployees toLowerCase toString st = []))
      as [|Hne]; [done|].
    rewrite buildTree_roots in Hroots.
    destruct (acyclic_has_root (filteredEmployees toLowerCase toString st));
      [|done|].
    + eapply acyclic_subseteq; [|done]. intros e He.
      eapply elem_of_sublist; [done|].
      unfold filteredEmployees. rewrite filterEmployees_filter.
      apply sublist_filter.
    + by destruct (rootRecords (filteredEmployees toLowerCase toString st)).
  - by intros ->.
Qed.

Section ReadingUnique.
Variable employees : list employee.
Hypothesis Huniq : uniqueIds employees.
Local Abbreviation R := (rootRecords employees).

Lemma levelOrder_length start d :
  (∀ k, (k < d)%nat → levelFrom employees start k ≠ []) →
  (d ≤ length (levelOrder employees start d))%nat.
Proof.
  revert start. induction d as [|d IH]; intros start Hne; simpl; [lia|].
  rewrite length_app.
  assert (start ≠ []) by (apply (Hne 0%nat); lia).
  assert (0 < length start)%nat by (destruct start; simpl; [done | lia]).
  specialize (IH (nextLevel employees start)).
  assert (d ≤ length (levelOrder employees (nextLevel employees start) d))%nat.
  { apply IH. intros k Hk. rewrite <- levelFrom_shift. apply Hne. lia. }
  lia.
Qed.

Lemma unique_roots_levels_empty :
  levelFrom employees R (length employees) = [].
Proof.
  destruct (decide (levelFrom employees R (length employees) = []))
    as [|Hne]; [done|].
  assert (Hlen : (S (length employees)
                  ≤ length (levelOrder employees R (S (length employees))))%nat).
  { apply levelOrder_length. intros k Hk Hempty. apply Hne.
    apply (levelFrom_empty_ge employees R k); [done | lia]. }
  assert (Hle : (length (levelOrder employees R (S (length employees)))
                 ≤ length employees)%nat).
  { apply submseteq_length, NoDup_submseteq.
    - apply levelOrder_NoDup; [done | apply rootRecords_subseteq | |].
      + unfold rootRecords. by apply NoDup_filter, uniqueIds_NoDup.
      + by apply rootRecords_apart.
    - intros e (k & _ & Hk)%elem_of_levelOrder.
      eapply levelFrom_subseteq; [|done]. apply rootRecords_subseteq. }
  lia.
Qed.

Lemma levelFrom_roots_upchain e :
  (∃ k, e ∈ levelFrom employees R k)
  ↔ ∃ l top, upchain employees (e :: l) top ∧ isRoot employees top.
Proof.
  split.
  - intros (k & Hk).
    apply levelFrom_upchain in Hk as (l & top & Hc & _ & Htop);
      [|apply rootRecords_subseteq].
    exists l, top. split; [done|].
    unfold rootRecords in Htop. by apply list_elem_of_filter in Htop as [? _].
  - intros (l & top & Hc & Hroot). exists (0 + length l)%nat.
    apply (upchain_levelFrom employees R _ _ 0 Hc). simpl.
    unfold rootRecords. apply list_elem_of_filter. split; [done|].
    eapply upchain_subseteq; [done|]. by eapply upchain_top.
Qed.

(** X25. With unique identifiers the forest of [buildTree] can always be
    read to the end, cycles or not: the nodes are the records whose chain
    of command ends in a root record, each one once; the records on a
    cycle, and those below them, are not in the forest. *)
Theorem forest_of_unique_ids :
  ∃ nodes,
    forestNodes (length employees) (buildTree employees) = Some nodes
    ∧ NoDup nodes
    ∧ ∀ e, e ∈ nodes ↔
           ∃ l top, upchain employees (e :: l) top ∧ isRoot employees top.
Proof.
  destruct (subtreeNodes_levelOrder employees (length employees) R Huniq)
    as (ts & Hts & Hperm).
  { apply rootRecords_subseteq. }
  { apply unique_roots_levels_empty. }
  exists (concat ts). split_and!.
  - unfold forestNodes. by rewrite buildTree_roots, Hts.
  - rewrite Hperm. apply levelOrder_NoDup; [done | apply rootRecords_subseteq | |].
    + unfold rootRecords. by apply NoDup_filter, uniqueIds_NoDup.
    + by apply rootRecords_apart.
  - intros e. rewrite Hperm, <- levelFrom_roots_upchain, elem_of_levelOrder.
    split; [intros (k & _ & Hk); by exists k|].
    intros (k & Hk). exists k. split; [|done].
    destruct (decide (k < length employees)%nat) as [|Hge]; [done|].
    rewrite (levelFrom_empty_ge employees R (length employees) k) in Hk;
      [by apply elem_of_nil in Hk | apply unique_roots_levels_empty | lia].
Qed.
End ReadingUnique.

(** With a repeated identifier a node can be its own child, and reading
    the forest never ends. *)
Example forestNodes_own_child fuel :
  forestNodes fuel (buildTree ownChild) = None.
Proof.
  assert (Hm : employeeMap (buildTree ownChild) !! 1
               = Some (Node (Employee 1 "CEO bis" "Chief Executive Officer"
                               "Executive" (Some 1)) [1]))
    by (vm_compute; reflexivity).
  assert (Hr : roots (buildTree ownChild) = [1]) by reflexivity.
  unfold forestNodes. rewrite Hr.
  generalize dependent (employeeMap (buildTree ownChild)). intros m Hm.
  assert (Hsub : subtreeNodes fuel m 1 = None).
  { induction fuel as [|fuel IH]; [done|].
    cbn [subtreeNodes]. rewrite Hm. simpl. by rewrite IH. }
  simpl. by rewrite Hsub.
Qed.

(** ** Moving an employee more than once *)

Lemma reparented_eq (l : list employee) x m :
  reparented l x m
  = (λ e, if decide (id e = x)
          then Employee (id e) (name e) (designation e) (team e) m
          else e) <$> l.
Proof. done. Qed.

Lemma reparented_moves (l : list employee) x y m1 m2 :
  reparented (reparented l x m1) x m2 = reparented l x m2
  ∧ (x ≠ y →
       reparented (reparented l x m1) y m2
       = reparented (reparented l y m2) x m1)
  ∧ ((∀ e, e ∈ l → id e = x → managerId e = m1) → reparented l x m1 = l).
Proof.
  rewrite !reparented_eq. split_and!.
  - rewrite <- list_fmap_compose. apply list_fmap_ext. intros _ e _. simpl.
    case_decide; simpl; by case_decide.
  - intros Hxy. rewrite <- !list_fmap_compose. apply list_fmap_ext.
    intros _ e _. simpl.
    destruct (decide (id e = x)), (decide (id e = y)); simpl;
      repeat case_decide; congruence.
  - intros Hm. induction l as [|e l IH]; [done|]. csimpl. rewrite IH.
    + f_equal. case_decide as He; [|done].
      rewrite <- (Hm e); [by destruct e | apply list_elem_of_here | done].
    + intros e' He'. apply Hm. by apply list_elem_of_further.
Qed.

Section Moves.
Local Abbreviation move := (λ (x : Z) (m : option Z),
  UPDATE_EMPLOYEE x (Updates None None None None (Some m))).

(** X26. Of two manager updates of the same employee the last one
    decides; updates of two different employees can be dispatched in
    either order; and an update to the manager the employee already has
    returns the state as it is. *)
Theorem reducer_moves st x y m1 m2 :
  employeeReducer (employeeReducer st (move x m1)) (move x m2)
  = employeeReducer st (move x m2)
  ∧ (x ≠ y →
       employeeReducer (employeeReducer st (move x m1)) (move y m2)
       = employeeReducer (employeeReducer st (move y m2)) (move x m1))
  ∧ ((∀ e, e ∈ employees st → id e = x → managerId e = m1) →
       employeeReducer st (move x m1) = st).
Proof.
  destruct st as [l ld err term tm].
  destruct (reparented_moves l x y m1 m2) as (H1 & H2 & H3).
  unfold reparented in *. simpl in *. split_and!.
  - by rewrite H1.
  - intros Hxy. by rewrite H2.
  - intros Hm. by rewrite H3.
Qed.
End Moves.

(** X27. Consulting more records never turns a refusal into an
    acceptance: what the guard refuses on a part of the collection, such
    as a filtered view, it refuses on the whole collection. *)
Theorem guard_monotone fuel fuel' (part whole : list employee) x y b :
  (∀ e, e ∈ part → e ∈ whole) →
  wouldCreateCircularReference fuel part x y = Some true →
  wouldCreateCircularReference fuel' whole x y = Some b →
  b = true.
Proof.
  intros Hsub Hpart Hwhole.
  apply (guard_true_iff whole fuel' x y b Hwhole).
  destruct (proj1 (guard_true_iff part fuel x y true Hpart) eq_refl)
    as [?|(q & Hq & Hid)]; [by left|].
  right. exists q. split; [|done].
  clear -Hq Hsub. induction Hq as [e He Hm|e p He Hm _ IH].
  - apply reportsTo_direct; [by apply Hsub | done].
  - eapply reportsTo_via; [by apply Hsub | done | done].
Qed.

(** ** The further properties on the tests' employees *)

Lemma mockEmployees_acyclic : acyclic mockEmployees.
Proof. apply managersFirst_acyclic. reflexivity. Qed.

Lemma mockEmployees_uniqueIds : uniqueIds mockEmployees.
Proof. unfold uniqueIds. apply (bool_decide_unpack _). vm_compute. exact I. Qed.

Lemma getAllReports_descendants_witness :
  getAllReports 10 mockEmployees 2 = Some (drop 3 mockEmployees)
  ∧ (∀ e, e ∈ drop 3 mockEmployees ↔ reportsTo mockEmployees 2 e)
  ∧ (∀ e, e ∈ drop 3 mockEmployees →
          e ∈ mockEmployees ∧ is_Some (managerId e)).
Proof.
  split; [reflexivity|].
  apply (getAllReports_descendants mockEmployees 10 2). reflexivity.
Defined.

Lemma getAllReports_returns_iff_witness :
  (∀ e, reportsTo mockEmployees 1 e → ¬ tc (parent mockEmployees) e e)
  ∧ ∃ fuel out, getAllReports fuel mockEmployees 1 = Some out.
Proof.
  assert (H : ∀ e, reportsTo mockEmployees 1 e → ¬ tc (parent mockEmployees) e e).
  { intros e _. apply mockEmployees_acyclic. }
  split; [exact H|].
  exact (proj2 (getAllReports_returns_iff mockEmployees 1) H).
Defined.

Lemma getAllReports_empty_witness :
  ((2 ≤ 10)%nat ∧ ∀ e, e ∈ mockEmployees → managerId e ≠ Some 5)
  ∧ getAllReports 10 mockEmployees 5 = Some [].
Proof.
  assert (H : (2 ≤ 10)%nat ∧ ∀ e, e ∈ mockEmployees → managerId e ≠ Some 5).
  { split; [lia|]. intros e He Hm. apply list_elem_of_In in He. simpl in He.
    intuition subst; discriminate. }
  split; [exact H|].
  exact (proj2 (getAllReports_empty mockEmployees 10 5) H).
Defined.

Lemma wouldCreateCircularReference_below_witness :
  wouldCreateCircularReference 10 mockEmployees 1 5 = Some true
  ∧ (true = true ↔ 1 = 5 ∨ ∃ q, reportsTo mockEmployees 1 q ∧ id q = 5)
  ∧ (true = false ↔ 1 ≠ 5 ∧ ∀ q, reportsTo mockEmployees 1 q → id q ≠ 5).
Proof.
  split; [reflexivity|].
  apply (wouldCreateCircularReference_below 10 mockEmployees 1 5 true).
  reflexivity.
Defined.

Lemma handleDragEnd_keeps_acyclic_witness :
  handleDragEnd alwaysResolved 10 (employees mockState) mockState 5 (Some 2)
  = Some (Updated, (updateEmployeeManager alwaysResolved mockState 5 (Some 2)).1)
  ∧ acyclic (employees mockState)
  ∧ acyclic (employees (updateEmployeeManager alwaysResolved mockState 5 (Some 2)).1).
Proof.
  split; [reflexivity|]. split; [exact mockEmployees_acyclic|].
  apply (handleDragEnd_keeps_acyclic alwaysResolved 10 mockState 5 (Some 2) Updated);
    [reflexivity | exact mockEmployees_acyclic].
Defined.

Lemma handleDragEnd_frame_witness :
  handleDragEnd alwaysResolved 10 (employees mockState) mockState 5 (Some 2)
  = Some (Updated, (updateEmployeeManager alwaysResolved mockState 5 (Some 2)).1)
  ∧ (λ e, (id e, name e, designation e, team e))
      <$> employees (updateEmployeeManager alwaysResolved mockState 5 (Some 2)).1
    = (λ e, (id e, name e, designation e, team e)) <$> employees mockState.
Proof.
  split; [reflexivity|].
  apply (handleDragEnd_frame alwaysResolved 10 (employees mockState)
           mockState 5 (Some 2) Updated).
  reflexivity.
Defined.


Lemma handleDragEnd_reverse_refused_witness :
  acyclic (employees mockState)
  ∧ (5 ∈ id <$> employees mockState)
  ∧ handleDragEnd alwaysResolved 10 (employees mockState) mockState 5 (Some 2)
    = Some (Updated, (updateEmployeeManager alwaysResolved mockState 5 (Some 2)).1)
  ∧ ∃ fuel0, ∀ fuel' st'', (fuel0 ≤ fuel')%nat →
      handleDragEnd alwaysResolved fuel'
        (employees (updateEmployeeManager alwaysResolved mockState 5 (Some 2)).1)
        st'' 2 (Some 5)
      = Some (CircularAlert, st'').
Proof.
  assert (H5 : 5 ∈ id <$> employees mockState).
  { apply (bool_decide_unpack _). vm_compute. exact I. }
  split; [exact mockEmployees_acyclic|]. split; [exact H5|].
  split; [reflexivity|].
  apply (handleDragEnd_reverse_refused alwaysResolved alwaysResolved 10
           mockState 5 2);
    [exact mockEmployees_acyclic | exact H5 | reflexivity].
Defined.

Lemma updateEmployeeManager_root_keeps_acyclic_witness :
  acyclic (employees mockState)
  ∧ acyclic (employees (updateEmployeeManager alwaysResolved mockState 5 None).1).
Proof.
  split; [exact mockEmployees_acyclic|].
  apply (updateEmployeeManager_root_keeps_acyclic alwaysResolved mockState 5).
  exact mockEmployees_acyclic.
Defined.

Lemma findEmployeeById_unique_witness :
  uniqueIds mockEmployees
  ∧ Employee 4 "Dev Lead" "Development Lead" "Technology" (Some 2) ∈ mockEmployees
  ∧ findEmployeeById mockEmployees 4
    = Some (Employee 4 "Dev Lead" "Development Lead" "Technology" (Some 2)).
Proof.
  assert (H4 : Employee 4 "Dev Lead" "Development Lead" "Technology" (Some 2)
               ∈ mockEmployees).
  { do 3 apply list_elem_of_further. apply list_elem_of_here. }
  split; [exact mockEmployees_uniqueIds|]. split; [exact H4|].
  exact (findEmployeeById_unique mockEmployees _ mockEmployees_uniqueIds H4).
Defined.

Lemma filterEmployees_case_insensitive_witness :
  truthy "CEO" = truthy "ceo"
  ∧ asciiToLowerCase "CEO" = asciiToLowerCase "ceo"
  ∧ filterEmployees asciiToLowerCase decimalToString mockEmployees
      "CEO" EmptyString
    = filterEmployees asciiToLowerCase decimalToString mockEmployees
        "ceo" EmptyString.
Proof.
  split; [reflexivity|]. split; [reflexivity|].
  apply (filterEmployees_case_insensitive asciiToLowerCase decimalToString
           mockEmployees "CEO" "ceo");
    reflexivity.
Defined.

Lemma getUniqueTeams_sorted_witness :
  StronglySorted String.le (getUniqueTeams String.le mockEmployees)
  ∧ NoDup (getUniqueTeams String.le mockEmployees)
  ∧ ∀ t, t ∈ getUniqueTeams String.le mockEmployees
         ↔ ∃ e, e ∈ mockEmployees ∧ team e = t.
Proof. exact (getUniqueTeams_sorted String.le mockEmployees). Defined.

Lemma getUniqueTeams_unique_witness :
  getUniqueTeams String.le mockEmployees
  = ["Executive"; "Finance"; "Technology"].
Proof.
  apply (getUniqueTeams_unique String.le mockEmployees).
  - apply (bool_decide_unpack _). vm_compute. exact I.
  - apply (bool_decide_unpack _). vm_compute. exact I.
  - intros t. split.
    + intros Ht. apply list_elem_of_In in Ht. simpl in Ht.
      destruct Ht as [<-|[<-|[<-|[]]]].
      * eexists. split; [apply list_elem_of_here | reflexivity].
      * eexists. split; [do 2 apply list_elem_of_further; apply list_elem_of_here
                        | reflexivity].
      * eexists. split; [apply list_elem_of_further, list_elem_of_here
                        | reflexivity].
    + intros (e & He & <-). apply list_elem_of_In in He. simpl in He.
      apply list_elem_of_In. simpl. intuition subst; simpl; tauto.
Defined.

Lemma teams_option_selects_witness :
  ("Technology" ∈ teams String.le mockState)
  ∧ filterEmployees asciiToLowerCase decimalToString
      (employees mockState) EmptyString "Technology" ≠ []
  ∧ ∀ e, e ∈ filterEmployees asciiToLowerCase decimalToString
               (employees mockState) EmptyString "Technology" →
         team e = "Technology".
Proof.
  assert (H : "Technology" ∈ teams String.le mockState).
  { apply (bool_decide_unpack _). vm_compute. exact I. }
  split; [exact H|].
  apply (teams_option_selects String.le asciiToLowerCase decimalToString
           mockState "Technology" H).
  discriminate.
Defined.

Lemma buildTree_last_wins_witness :
  fields <$> employeeMap (buildTree ownChild) !! 1
  = Some (Employee 1 "CEO bis" "Chief Executive Officer" "Executive" (Some 1)).
Proof.
  apply (buildTree_last_wins ownChild
           [Employee 1 "CEO" "Chief Executive Officer" "Executive" None]
           (Employee 1 "CEO bis" "Chief Executive Officer" "Executive" (Some 1))
           []).
  - reflexivity.
  - apply not_elem_of_nil.
Defined.

Lemma buildTree_has_root_witness :
  acyclic mockEmployees ∧ mockEmployees ≠ []
  ∧ roots (buildTree mockEmployees) ≠ [].
Proof.
  split; [exact mockEmployees_acyclic|]. split; [discriminate|].
  apply (buildTree_has_root mockEmployees mockEmployees_acyclic). discriminate.
Defined.

Lemma tree_empty_iff_witness :
  acyclic (employees mockState)
  ∧ (roots (tree asciiToLowerCase decimalToString mockState) = []
     ↔ filteredEmployees asciiToLowerCase decimalToString mockState = []).
Proof.
  split; [exact mockEmployees_acyclic|].
  apply (tree_empty_iff asciiToLowerCase decimalToString mockState).
  exact mockEmployees_acyclic.
Defined.

Lemma forest_of_unique_ids_witness :
  uniqueIds mutualManagers
  ∧ ∃ nodes,
      forestNodes 2 (buildTree mutualManagers) = Some nodes
      ∧ NoDup nodes
      ∧ ∀ e, e ∈ nodes ↔
             ∃ l top, upchain mutualManagers (e :: l) top
                      ∧ isRoot mutualManagers top.
Proof.
  assert (Hu : uniqueIds mutualManagers).
  { unfold uniqueIds. apply (bool_decide_unpack _). vm_compute. exact I. }
  split; [exact Hu|]. exact (forest_of_unique_ids mutualManagers Hu).
Defined.

Lemma reducer_moves_witness :
  5 ≠ 4
  ∧ employeeReducer
      (employeeReducer mockState
         (UPDATE_EMPLOYEE 5 (Updates None None None None (Some (Some 2)))))
      (UPDATE_EMPLOYEE 4 (Updates None None None None (Some (Some 3))))
    = employeeReducer
        (employeeReducer mockState
           (UPDATE_EMPLOYEE 4 (Updates None None None None (Some (Some 3)))))
        (UPDATE_EMPLOYEE 5 (Updates None None None None (Some (Some 2)))).
Proof.
  split; [lia|].
  apply (proj1 (proj2 (reducer_moves mockState 5 4 (Some 2) (Some 3)))). lia.
Defined.

Lemma guard_monotone_witness :
  (∀ e, e ∈ drop 1 mockEmployees → e ∈ mockEmployees)
  ∧ wouldCreateCircularReference 10 (drop 1 mockEmployees) 2 5 = Some true
  ∧ wouldCreateCircularReference 10 mockEmployees 2 5 = Some true
  ∧ true = true.
Proof.
  assert (H : ∀ e, e ∈ drop 1 mockEmployees → e ∈ mockEmployees).
  { intros e He. by apply list_elem_of_further. }
  split; [exact H|]. split; [reflexivity|]. split; [reflexivity|].
  apply (guard_monotone 10 10 (drop 1 mockEmployees) mockEmployees 2 5 true H);
    reflexivity.
Defined.
